(** * Neuraxle value caching: [neuraxle/steps/caching.py]

    A shallow embedding of [ValueCachingWrapper] and of its pickle
    realisation [PickleValueCachingWrapper], over a small model of the
    part of the operating system the code talks to ([os.path.exists],
    [os.makedirs], [os.mkdir], [shutil.rmtree], [open] in modes ['rb'] and
    ['wb']).

    Python methods become actions of a state-and-exception monad over a
    [world]: the wrapper object ([self]), the file system, and the list of
    calls made so far to the wrapped step and to the mutating file system
    primitives.  An exception leaves the world as it was when it was
    raised, as in Python. *)

From Stdlib Require Import Strings.Byte.
From stdpp Require Import gmap strings list fin_maps.

(** ** Paths and the file system *)

(** A path in resolved form: the list of its components below the base
    directory.  [os.path.join dir name], for a [name] that is a single
    component, is [dir ++ [name]]. *)
Abbreviation path := (list string).

Inductive node : Type :=
  | Dir
  | File (content : list byte).

Abbreviation filesystem := (gmap path node).

(** [os.path.dirname] *)
Definition dirname (p : path) : path := take (pred (length p)) p.

(** The base directory [[]] always exists; every other path is looked up. *)
Definition lookup_node (m : filesystem) (p : path) : option node :=
  match p with
  | [] => Some Dir
  | _ => m !! p
  end.

(** Every entry lives in a directory. *)
Definition fs_wf (m : filesystem) : Prop :=
  map_Forall (λ p _, p ≠ [] ∧ lookup_node m (dirname p) = Some Dir) m.

Global Instance byte_eq_dec : EqDecision byte := Byte.byte_eq_dec.

Global Instance node_eq_dec : EqDecision node.
Proof. solve_decision. Defined.

Global Instance fs_wf_dec (m : filesystem) : Decision (fs_wf m).
Proof. unfold fs_wf. apply _. Defined.

(** ** Exceptions *)

Inductive exn : Type :=
  | AttributeError
  | FileNotFoundError
  | NotADirectoryError
  | IsADirectoryError
  | FileExistsError
  | PicklingError
  | UnpicklingError.

(** The error of a system call on a path that does not exist: walking
    down from the base directory, the first component that is not a
    directory decides, [ENOTDIR] when it is a regular file, [ENOENT] when
    it is missing. *)
Fixpoint walk_error (m : filesystem) (walked rest : path) : exn :=
  match rest with
  | [] => FileNotFoundError
  | name :: rest =>
      match lookup_node m walked with
      | Some Dir => walk_error m (walked ++ [name]) rest
      | Some (File _) => NotADirectoryError
      | None => FileNotFoundError
      end
  end.

Definition absent_error (m : filesystem) (p : path) : exn := walk_error m [] p.

(** What [pickle.dump] did: the whole stream, or the bytes it had put out
    when it raised. *)
Inductive dump_result : Type :=
  | Dumped (data : list byte)
  | DumpFailed (written : list byte).

(** ** The collaborators

    What the module imports and does not define: the wrapped step
    ([neuraxle.base.BaseStep]: [fit], [transform], [hash]), [pickle], the
    default hasher and the constants of [neuraxle.steps.misc] and
    [neuraxle.pipeline]. *)
Class Collaborators : Type := {
  (** Python values (data inputs and outputs), the wrapped step, the
      hyperparameters and the identifiers of a data container. *)
  value : Type;
  step : Type;
  hyperparams : Type;
  ident : Type;
  (** [BaseStep.fit(data_inputs, expected_outputs)], which returns the
      fitted step, and [BaseStep.transform(data_inputs)]. *)
  fit : step → list value → list value → step;
  transform : step → list value → list value;
  (** [BaseStep.hash(current_ids, hyperparameters, data_inputs)]. *)
  step_hash : list ident → hyperparams → list value → list ident;
  (** [pickle.dump] and [pickle.load]; [None] when [pickle.load] raises. *)
  pickle_dump : list value → dump_result;
  pickle_load : list byte → option (list value);
  (** [Md5Hasher().hash], [VALUE_CACHING], [DEFAULT_CACHE_FOLDER]. *)
  Md5Hasher : value → string;
  VALUE_CACHING : string;
  DEFAULT_CACHE_FOLDER : path
}.

Section Caching.

Context `{Collaborators}.

(** *** The objects *)

(** The attributes of a [ValueCachingWrapper]; [checkpoint_path] is
    [None] as long as the attribute has not been assigned. *)
Record ValueCachingWrapper : Type := {
  wrapped : step;
  value_hasher : value → string;
  cache_folder : path;
  hyperparams_ : hyperparams;
  checkpoint_path : option path
}.

Record DataContainer : Type := {
  current_ids : list ident;
  data_inputs : list value;
  expected_outputs : list value
}.

(** Modelled from the spec: [DataContainer.__iter__] of [neuraxle.base]
    is not part of the sources; the container supplies its
    [(identifier, item, expected_output)] triples in stable order. *)
Definition dc_iter (dc : DataContainer) : list (ident * value * value) :=
  zip (zip (current_ids dc) (data_inputs dc)) (expected_outputs dc).

Definition set_data_inputs (outputs : list value) (dc : DataContainer) :=
  {| current_ids := current_ids dc;
     data_inputs := outputs;
     expected_outputs := expected_outputs dc |}.

Definition set_current_ids (ids : list ident) (dc : DataContainer) :=
  {| current_ids := ids;
     data_inputs := data_inputs dc;
     expected_outputs := expected_outputs dc |}.

(** Calls to the wrapped step and to the mutating primitives of the file
    system, in the order they are made. *)
Inductive call : Type :=
  | CallFit (inputs expected : list value)
  | CallTransform (inputs : list value)
  | CallRmtree (p : path)
  | CallMkdir (p : path)
  | CallOpenWb (p : path).

Record world : Type := {
  self : ValueCachingWrapper;
  fs : filesystem;
  calls : list call
}.

Definition set_self (o : ValueCachingWrapper) (w : world) : world :=
  {| self := o; fs := fs w; calls := calls w |}.
Definition set_fs (m : filesystem) (w : world) : world :=
  {| self := self w; fs := m; calls := calls w |}.
Definition log (c : call) (w : world) : world :=
  {| self := self w; fs := fs w; calls := calls w ++ [c] |}.

(** *** The monad *)

Definition M (A : Type) : Type := world → (exn + A) * world.

Definition ret {A} (a : A) : M A := λ w, (inr a, w).
Definition raise {A} (e : exn) : M A := λ w, (inl e, w).
Definition bind {A B} (m : M A) (k : A → M B) : M B :=
  λ w, match m w with
       | (inl e, w') => (inl e, w')
       | (inr a, w') => k a w'
       end.

Notation "x <- m ;; k" := (bind m (λ x, k))
  (at level 100, m at next level, right associativity).
Notation "m ;; k" := (bind m (λ _, k))
  (at level 100, right associativity).

(** *** The operating system *)

Definition os_path_exists (p : path) : M bool :=
  λ w, (inr (bool_decide (is_Some (lookup_node (fs w) p))), w).

(** [shutil.rmtree(p)]: [p] and everything below it goes. *)
Definition shutil_rmtree (p : path) : M unit :=
  λ w, match lookup_node (fs w) p with
       | None => (inl (absent_error (fs w) p), w)
       | Some (File _) => (inl NotADirectoryError, w)
       | Some Dir =>
           (inr (), log (CallRmtree p)
                      (set_fs (filter (λ kv, ¬ p `prefix_of` kv.1) (fs w)) w))
       end.

Definition os_mkdir (p : path) : M unit :=
  λ w, match lookup_node (fs w) p with
       | Some _ => (inl FileExistsError, w)
       | None =>
           match lookup_node (fs w) (dirname p) with
           | None => (inl (absent_error (fs w) (dirname p)), w)
           | Some (File _) => (inl NotADirectoryError, w)
           | Some Dir => (inr (), log (CallMkdir p) (set_fs (<[p := Dir]> (fs w)) w))
           end
       end.

(** [os.makedirs(p)], on the reversed path [rp]: the missing ancestors
    are made first, a [FileExistsError] among them is passed over, then
    [p] itself is made. *)
Fixpoint os_makedirs_rev (rp : path) : M unit :=
  match rp with
  | [] => os_mkdir []
  | _ :: rhead =>
      head_exists <- os_path_exists (reverse rhead) ;;
      (if negb head_exists
       then λ w, match os_makedirs_rev rhead w with
                 | (inl FileExistsError, w') => (inr (), w')
                 | r => r
                 end
       else ret ()) ;;
      os_mkdir (reverse rp)
  end.

Definition os_makedirs (p : path) : M unit := os_makedirs_rev (reverse p).

(** [open(p, 'wb')]: the file is created, or cut to length zero. *)
Definition open_wb (p : path) : M unit :=
  λ w, let created := (inr (), log (CallOpenWb p) (set_fs (<[p := File []]> (fs w)) w)) in
       match lookup_node (fs w) p with
       | Some Dir => (inl IsADirectoryError, w)
       | Some (File _) => created
       | None =>
           match lookup_node (fs w) (dirname p) with
           | None => (inl (absent_error (fs w) (dirname p)), w)
           | Some (File _) => (inl NotADirectoryError, w)
           | Some Dir => created
           end
       end.

(** [file_.write(data)] on a file open for writing. *)
Definition file_write (p : path) (data : list byte) : M unit :=
  λ w, match fs w !! p with
       | Some (File old) => (inr (), set_fs (<[p := File (old ++ data)]> (fs w)) w)
       | _ => (inr (), w)
       end.

(** [open(p, 'rb')] and [file_.read()]. *)
Definition open_rb (p : path) : M (list byte) :=
  λ w, match lookup_node (fs w) p with
       | Some (File content) => (inr content, w)
       | Some Dir => (inl IsADirectoryError, w)
       | None => (inl (absent_error (fs w) p), w)
       end.

(** [pickle.dump(output, file_)]: what was serialised before a failure
    has been written. *)
Definition pickle_dump_to (output : list value) (p : path) : M unit :=
  match pickle_dump output with
  | Dumped data => file_write p data
  | DumpFailed written => file_write p written ;; raise PicklingError
  end.

Definition pickle_load_from (data : list byte) : M (list value) :=
  match pickle_load data with
  | Some output => ret output
  | None => raise UnpicklingError
  end.

(** *** The wrapped step *)

(** [self.wrapped = self.wrapped.fit(data_inputs, expected_outputs)] *)
Definition wrapped_fit (inputs expected : list value) : M unit :=
  λ w, let o := self w in
       (inr (),
        log (CallFit inputs expected)
          (set_self {| wrapped := fit (wrapped o) inputs expected;
                       value_hasher := value_hasher o;
                       cache_folder := cache_folder o;
                       hyperparams_ := hyperparams_ o;
                       checkpoint_path := checkpoint_path o |} w)).

(** [self.wrapped.transform(inputs)] *)
Definition wrapped_transform (inputs : list value) : M (list value) :=
  λ w, (inr (transform (wrapped (self w)) inputs), log (CallTransform inputs) w).

(** [self.hash(current_ids, self.hyperparams, outputs)] *)
Definition self_hash (ids : list ident) (outputs : list value) : M (list ident) :=
  λ w, (inr (step_hash ids (hyperparams_ (self w)) outputs), w).

(** *** [ValueCachingWrapper] and [PickleValueCachingWrapper] *)

Definition __init__ (wrapped0 : step) (hp : hyperparams)
    (cache_folder0 : option path) (value_hasher0 : option (value → string))
  : ValueCachingWrapper :=
  {| wrapped := wrapped0;
     value_hasher := default Md5Hasher value_hasher0;
     cache_folder := default DEFAULT_CACHE_FOLDER cache_folder0;
     hyperparams_ := hp;
     checkpoint_path := None |}.

(** Reading [self.checkpoint_path]. *)
Definition self_checkpoint_path : M path :=
  λ w, match checkpoint_path (self w) with
       | Some cp => (inr cp, w)
       | None => (inl AttributeError, w)
       end.

Definition _hash_value (data_input : value) : M string :=
  λ w, (inr (value_hasher (self w) data_input), w).

Definition create_checkpoint_path (step_path : path) : M path :=
  (λ w, let o := self w in
        (inr (),
         set_self {| wrapped := wrapped o;
                     value_hasher := value_hasher o;
                     cache_folder := cache_folder o;
                     hyperparams_ := hyperparams_ o;
                     checkpoint_path :=
                       Some (cache_folder o ++ step_path ++ [VALUE_CACHING]) |} w)) ;;
  cp <- self_checkpoint_path ;;
  present <- os_path_exists cp ;;
  (if negb present
   then cp <- self_checkpoint_path ;; os_makedirs cp
   else ret ()) ;;
  self_checkpoint_path.

Definition setup (step_path : path) : M unit :=
  create_checkpoint_path step_path ;; ret ().

Definition flush_cache : M unit :=
  cp <- self_checkpoint_path ;;
  shutil_rmtree cp ;;
  cp <- self_checkpoint_path ;;
  os_mkdir cp.

(** [os.path.join(self.checkpoint_path, '{0}.pickle'.format(hash_value))],
    for a hash whose file name is one path component: the file lies
    directly in the checkpoint directory.  The statements that depend on
    where the file lies assume this of the hasher
    ([hashes_are_file_names]). *)
Definition get_cache_path_for (data_input : value) : M path :=
  hash_value <- _hash_value data_input ;;
  cp <- self_checkpoint_path ;;
  ret (cp ++ [hash_value +:+ ".pickle"]).

Definition read_cache (data_input : value) : M (list value) :=
  p <- get_cache_path_for data_input ;;
  data <- open_rb p ;;
  pickle_load_from data.

Definition write_cache (data_input : value) (output : list value) : M unit :=
  p <- get_cache_path_for data_input ;;
  open_wb p ;;
  pickle_dump_to output p.

Definition contains_cache_for (data_input : value) : M bool :=
  p <- get_cache_path_for data_input ;;
  os_path_exists p.

(** The [for] loop of [_transform_with_cache], on what is left of the
    iteration and the [outputs] gathered so far. *)
Fixpoint _transform_with_cache_loop
    (items : list (ident * value * value)) (outputs : list value) : M (list value) :=
  match items with
  | [] => ret outputs
  | (current_id, data_input, expected_output) :: rest =>
      hit <- contains_cache_for data_input ;;
      outputs <- (if hit : bool
                  then cached <- read_cache data_input ;;
                       ret (outputs ++ cached)
                  else output <- wrapped_transform [data_input] ;;
                       write_cache data_input output ;;
                       ret (outputs ++ output)) ;;
      _transform_with_cache_loop rest outputs
  end.

Definition _transform_with_cache (data_container : DataContainer) : M (list value) :=
  _transform_with_cache_loop (dc_iter data_container) [].

(** Returns the data container; the fitted step is [self] of the world. *)
Definition handle_fit_transform (data_container : DataContainer) : M DataContainer :=
  flush_cache ;;
  wrapped_fit (data_inputs data_container) (expected_outputs data_container) ;;
  outputs <- _transform_with_cache data_container ;;
  let data_container := set_data_inputs outputs data_container in
  current_ids <- self_hash (current_ids data_container) outputs ;;
  let data_container := set_current_ids current_ids data_container in
  ret data_container.

Definition handle_transform (data_container : DataContainer) : M DataContainer :=
  outputs <- _transform_with_cache data_container ;;
  let data_container := set_data_inputs outputs data_container in
  current_ids <- self_hash (current_ids data_container) outputs ;;
  let data_container := set_current_ids current_ids data_container in
  ret data_container.

End Caching.

(** ** Vocabulary of the statements *)

Section Vocabulary.

Context `{Collaborators}.

(** A name that is one component of a path: it has no separator and is
    none of the empty name, [.] and [..]. *)
Fixpoint has_separator (name : string) : bool :=
  match name with
  | EmptyString => false
  | String c name =>
      if Ascii.eqb c (Ascii.ascii_of_N 47) then true else has_separator name
  end.

Definition path_component (name : string) : Prop :=
  has_separator name = false ∧ name ≠ "" ∧ name ≠ "." ∧ name ≠ "..".

(** The hasher gives every item a hash whose file name,
    ['{0}.pickle'.format(hash_value)], is one path component, as the
    hexadecimal digests of [Md5Hasher] do.  Then [os.path.join] puts the
    file directly in the checkpoint directory. *)
Definition hashes_are_file_names (o : ValueCachingWrapper) : Prop :=
  ∀ x, path_component (value_hasher o x +:+ ".pickle").

(** The file of the entry of [data_input] below the checkpoint path
    [cp]: what [get_cache_path_for] returns, for such a hasher. *)
Definition entry_path (o : ValueCachingWrapper) (cp : path) (data_input : value) : path :=
  cp ++ [value_hasher o data_input +:+ ".pickle"].

(** The world after a successful [flush_cache] of the checkpoint path
    [cp]. *)
Definition flushed (cp : path) (w : world) : world :=
  {| self := self w;
     fs := <[cp := Dir]> (filter (λ kv, ¬ cp `prefix_of` kv.1) (fs w));
     calls := calls w ++ [CallRmtree cp; CallMkdir cp] |}.

(** The world after [data_input] missed the cache and the stream [data]
    of its output has been stored. *)
Definition stored (cp : path) (data_input : value) (data : list byte) (w : world) : world :=
  {| self := self w;
     fs := <[entry_path (self w) cp data_input := File data]> (fs w);
     calls := calls w ++ [CallTransform [data_input];
                          CallOpenWb (entry_path (self w) cp data_input)] |}.

(** The world once [open(p, 'wb')] has succeeded and [pickle.dump] has
    put out [data]. *)
Definition file_written (p : path) (data : list byte) (w : world) : world :=
  {| self := self w;
     fs := <[p := File data]> (fs w);
     calls := calls w ++ [CallOpenWb p] |}.

(** What a run of the [for] loop from [w] to [w'] may have done: the
    wrapper is the same, every file of [w] is still there as it was, and
    the calls made are calls to [transform] on one item that had no
    entry in [w], and calls to [open] for writing. *)
Definition loop_frame (cp : path) (w w' : world) : Prop :=
  self w' = self w ∧
  fs w ⊆ fs w' ∧
  ∃ l, calls w' = calls w ++ l ∧
       Forall (λ c, match c with
                    | CallTransform _ | CallOpenWb _ => True
                    | _ => False
                    end) l ∧
       ∀ inputs, CallTransform inputs ∈ l →
         ∃ x, inputs = [x] ∧ fs w !! entry_path (self w) cp x = None.

(** The first of the [items] whose hash is [h]. *)
Fixpoint first_with_hash (hasher : value → string) (h : string)
    (items : list value) : option value :=
  match items with
  | [] => None
  | x :: rest =>
      if decide (hasher x = h) then Some x else first_with_hash hasher h rest
  end.

(** What the item [x] of the batch [items] is due when the loop starts in
    [w]: the list [read_cache] returns for it in [w] when it has an entry
    there, and otherwise what [transform] of the wrapped step returns for
    the first item of the batch that has its hash. *)
Definition yields (w : world) (items : list value) (x : value)
    (chunk : list value) : Prop :=
  (contains_cache_for x w = (inr true, w) ∧ read_cache x w = (inr chunk, w))
  ∨ (contains_cache_for x w = (inr false, w) ∧
     ∃ x', first_with_hash (value_hasher (self w)) (value_hasher (self w) x) items
             = Some x' ∧
           chunk = transform (wrapped (self w)) [x']).

(** What the loop has done to the entries once it has gone through the
    items [pre] of a batch, from the world [w0]: the entries of [w0] are as
    they were, and a hash with no entry in [w0] has one exactly when one of
    [pre] has it, with the output of the first of them. *)
Definition gone_through (cp : path) (w0 : world) (pre : list value) (w : world) : Prop :=
  self w = self w0 ∧
  (∀ x n, fs w0 !! entry_path (self w0) cp x = Some n →
          fs w !! entry_path (self w0) cp x = Some n) ∧
  (∀ x, fs w0 !! entry_path (self w0) cp x = None →
        match first_with_hash (value_hasher (self w0)) (value_hasher (self w0) x) pre with
        | Some x' => ∃ data, fs w !! entry_path (self w0) cp x = Some (File data) ∧
                             pickle_load data = Some (transform (wrapped (self w0)) [x'])
        | None => fs w !! entry_path (self w0) cp x = None
        end).

(** [yields], on the files. *)
Definition yields_from (cp : path) (w0 : world) (items : list value) (x : value)
    (chunk : list value) : Prop :=
  (∃ data, fs w0 !! entry_path (self w0) cp x = Some (File data) ∧
           pickle_load data = Some chunk)
  ∨ (fs w0 !! entry_path (self w0) cp x = None ∧
     ∃ x', first_with_hash (value_hasher (self w0)) (value_hasher (self w0) x) items
             = Some x' ∧
           chunk = transform (wrapped (self w0)) [x']).

(** The inputs of the calls to [transform] among [l]. *)
Definition transform_calls (l : list call) : list (list value) :=
  omap (λ c, match c with CallTransform inputs => Some inputs | _ => None end) l.

(** The items whose hash no earlier item (and no member of [seen]) has. *)
Fixpoint first_by_hash (hasher : value → string) (seen : list string)
    (items : list value) : list value :=
  match items with
  | [] => []
  | x :: rest =>
      if decide (hasher x ∈ seen)
      then first_by_hash hasher seen rest
      else x :: first_by_hash hasher (hasher x :: seen) rest
  end.

(** The data inputs the iteration over a container yields. *)
Definition items_of (triples : list (ident * value * value)) : list value :=
  map (λ t, t.1.2) triples.

(** [pickle.load] gives back what [pickle.dump] was given. *)
Definition pickle_round_trip : Prop :=
  ∀ output data, pickle_dump output = Dumped data → pickle_load data = Some output.

(** The path [create_checkpoint_path] assigns for [step_path]. *)
Definition checkpoint_of (o : ValueCachingWrapper) (step_path : path) : path :=
  cache_folder o ++ step_path ++ [VALUE_CACHING].

(** The world once [create_checkpoint_path] has assigned the attribute. *)
Definition assigned (step_path : path) (w : world) : world :=
  set_self {| wrapped := wrapped (self w);
              value_hasher := value_hasher (self w);
              cache_folder := cache_folder (self w);
              hyperparams_ := hyperparams_ (self w);
              checkpoint_path := Some (checkpoint_of (self w) step_path) |} w.

(** No two of the [items] with different values have the same hash. *)
Definition hash_injective_on (o : ValueCachingWrapper) (items : list value) : Prop :=
  ∀ x y, x ∈ items → y ∈ items → value_hasher o x = value_hasher o y → x = y.

(** Every entry that one of the [items] has in [w] holds what the wrapped
    step returns for this item. *)
Definition coherent (cp : path) (items : list value) (w : world) : Prop :=
  ∀ x n, x ∈ items → fs w !! entry_path (self w) cp x = Some n →
    ∃ data, n = File data ∧ pickle_load data = Some (transform (wrapped (self w)) [x]).



End Vocabulary.

(** ** A concrete pipeline

    Integers as items, a wrapped step that multiplies by its factor, a
    hasher with collisions (the residue modulo 16, as a letter) and a small
    pickle: each integer of a list as the opcode [I] and one byte, then the
    opcode [.]; an integer that does not fit a byte cannot be pickled. *)
Module Demo.

Definition hash_letter (z : Z) : string :=
  String (Ascii.ascii_of_N (97 + Z.to_N (z mod 16))) EmptyString.

Fixpoint dump_bytes (output : list Z) : dump_result :=
  match output with
  | [] => Dumped ["."%byte]
  | z :: rest =>
      match (if decide (0 ≤ z)%Z then Byte.of_N (Z.to_N z) else None) with
      | None => DumpFailed []
      | Some b =>
          match dump_bytes rest with
          | Dumped data => Dumped ("I"%byte :: b :: data)
          | DumpFailed written => DumpFailed ("I"%byte :: b :: written)
          end
      end
  end.

Fixpoint load_bytes (data : list byte) : option (list Z) :=
  match data with
  | ["."%byte] => Some []
  | "I"%byte :: b :: rest =>
      match load_bytes rest with
      | Some output => Some (Z.of_N (Byte.to_N b) :: output)
      | None => None
      end
  | _ => None
  end.

#[export] Instance collaborators : Collaborators := {|
  value := Z;
  step := Z;
  hyperparams := unit;
  ident := nat;
  fit := λ factor inputs expected, factor;
  transform := λ factor inputs, map (Z.mul factor) inputs;
  step_hash := λ ids hp outputs, map S ids;
  pickle_dump := dump_bytes;
  pickle_load := load_bytes;
  Md5Hasher := hash_letter;
  VALUE_CACHING := "value_caching";
  DEFAULT_CACHE_FOLDER := ["cache"]
|}.

(** A wrapper that doubles, constructed with the defaults. *)
Definition doubler : ValueCachingWrapper := __init__ 2%Z () None None.

Definition fresh : world := {| self := doubler; fs := ∅; calls := [] |}.

(** After [setup] in the pipeline at [pipeline/step]. *)
Definition ready : world := (setup ["pipeline"; "step"] fresh).2.

Definition batch (inputs : list Z) : DataContainer :=
  {| current_ids := seq 0 (length inputs);
     data_inputs := inputs;
     expected_outputs := map (λ _, 0%Z) inputs |}.

(** After [handle_transform] of the batch [1, 2, 3]. *)
Definition warm : world := (handle_transform (batch [1; 2; 3]%Z) ready).2.

(** The checkpoint path [setup] gives the wrapper. *)
Definition demo_cp : path := ["cache"; "pipeline"; "step"; "value_caching"].

(** The same wrapper when its checkpoint directory is not there. *)
Definition lost : world := set_fs ∅ ready.

(** The same wrapper when a regular file has the name of the cache
    folder. *)
Definition shadowed : world := set_fs {[ ["cache"] := File [] ]} ready.

(** [warm] with the entry of the item [2] cut after its first byte. *)
Definition truncated : world :=
  set_fs (<[["cache"; "pipeline"; "step"; "value_caching"; "c.pickle"] := File ["I"%byte]]>
            (fs warm)) warm.

(** After a [write_cache] for the item [5] that failed in [pickle.dump]:
    [300] does not fit a byte. *)
Definition half_written : world := (write_cache 5%Z [1; 300]%Z ready).2.

(** Before [setup], with a regular file where the checkpoint directory
    would be. *)
Definition blocked : world := set_fs (<[demo_cp := File []]> (fs ready)) fresh.

End Demo.

(** ** Properties *)

Section Properties.

Context `{Collaborators}.

Implicit Types (w : world) (cp p : path) (x : value) (m : filesystem).

(** *** The monad *)

Lemma bind_run {A B} (m : M A) (k : A → M B) w :
  bind m k w =
    match m w with
    | (inl err, w') => (inl err, w')
    | (inr a, w') => k a w'
    end.
Proof. reflexivity. Qed.

(** A run is its result and the world it leaves. *)
Lemma run_eq {A} (m : M A) w (r : exn + A) : (m w).1 = r → m w = (r, (m w).2).
Proof. intros <-. by destruct (m w). Qed.

(** *** Paths *)

Lemma dirname_app p name : dirname (p ++ [name]) = p.
Proof.
  unfold dirname. rewrite length_app, Nat.add_1_r. simpl.
  by rewrite take_app_length.
Qed.

Lemma lookup_node_app m p name : lookup_node m (p ++ [name]) = m !! (p ++ [name]).
Proof. by destruct p. Qed.

Lemma lookup_node_Some_lookup m p n :
  m !! p = Some n → fs_wf m → lookup_node m p = Some n.
Proof.
  intros Hp Hwf. destruct (Hwf p n Hp) as [Hne _]. by destruct p.
Qed.

Lemma string_length_app (s t : string) :
  String.length (s +:+ t) = String.length s + String.length t.
Proof.
  induction s as [|a s IH]; [reflexivity|].
  change (S (String.length (s +:+ t)) = S (String.length s + String.length t)).
  by rewrite IH.
Qed.

Lemma string_app_inv_tail (s1 s2 t : string) : s1 +:+ t = s2 +:+ t → s1 = s2.
Proof.
  revert s2. induction s1 as [|a s1 IH]; intros [|b s2] Heq; [done| | |].
  - apply (f_equal String.length) in Heq.
    rewrite !string_length_app in Heq. simpl in Heq. lia.
  - apply (f_equal String.length) in Heq.
    rewrite !string_length_app in Heq. simpl in Heq. lia.
  - injection Heq as Ha Hs. rewrite Ha. f_equal. by apply IH.
Qed.

Lemma entry_path_inj o cp x1 x2 :
  entry_path o cp x1 = entry_path o cp x2 ↔ value_hasher o x1 = value_hasher o x2.
Proof.
  unfold entry_path. split; [|by intros ->].
  intros Heq. apply app_inv_head in Heq. injection Heq as Heq.
  by apply string_app_inv_tail in Heq.
Qed.

Lemma entry_path_prefix o cp x : cp `prefix_of` entry_path o cp x.
Proof. by apply prefix_app_r. Qed.

Lemma entry_path_ne o cp x : entry_path o cp x ≠ cp.
Proof.
  unfold entry_path. intros Heq.
  assert (Hl : length (cp ++ [value_hasher o x +:+ ".pickle"]) = length cp) by (by rewrite Heq).
  rewrite length_app in Hl. simpl in Hl. lia.
Qed.


Lemma walk_error_cases m walked rest :
  walk_error m walked rest = FileNotFoundError
  ∨ walk_error m walked rest = NotADirectoryError.
Proof.
  revert walked. induction rest as [|name rest IH]; intros walked; [by left|].
  simpl. destruct (lookup_node m walked) as [[|content]|]; [apply IH|by right|by left].
Qed.

Lemma absent_error_cases m p :
  absent_error m p = FileNotFoundError ∨ absent_error m p = NotADirectoryError.
Proof. apply walk_error_cases. Qed.

Lemma absent_error_not_pickling m p : absent_error m p ≠ PicklingError.
Proof. by destruct (absent_error_cases m p) as [-> | ->]. Qed.

(** With no regular file on the way, what is missing is not found. *)
Lemma absent_error_no_file m p :
  (∀ q content, q `prefix_of` p → m !! q ≠ Some (File content)) →
  absent_error m p = FileNotFoundError.
Proof.
  unfold absent_error.
  assert (Hgen : ∀ rest walked,
            (∀ q content, q `prefix_of` walked ++ rest → m !! q ≠ Some (File content)) →
            walk_error m walked rest = FileNotFoundError); [|by apply (Hgen p [])].
  induction rest as [|name rest IH]; intros walked Hfiles; [done|].
  simpl. destruct (lookup_node m walked) as [[|content]|] eqn:Hw; [|exfalso|done].
  - apply IH. intros q content. rewrite <- app_assoc. apply Hfiles.
  - destruct walked as [|a walked]; [done|]. simpl in Hw.
    by apply (Hfiles (a :: walked) content); [apply prefix_app_r|].
Qed.

(** The walk looks at the paths shorter than the one it resolves only. *)
Lemma walk_error_agree m m' walked rest :
  (∀ q, length q < length (walked ++ rest) → m !! q = m' !! q) →
  walk_error m walked rest = walk_error m' walked rest.
Proof.
  revert walked. induction rest as [|name rest IH]; intros walked Hagree; [done|].
  simpl.
  assert (Hw : lookup_node m walked = lookup_node m' walked).
  { destruct walked as [|a walked]; [done|]. simpl. apply Hagree.
    rewrite !length_app. simpl. lia. }
  rewrite Hw. destruct (lookup_node m' walked) as [[|content]|]; try done.
  apply IH. intros q. rewrite <- app_assoc. apply Hagree.
Qed.

(** *** The cache operations, one equation each *)

Lemma get_cache_path_for_eq x w :
  get_cache_path_for x w =
    match checkpoint_path (self w) with
    | Some cp => (inr (entry_path (self w) cp x), w)
    | None => (inl AttributeError, w)
    end.
Proof.
  unfold get_cache_path_for, bind, _hash_value, self_checkpoint_path, ret.
  by destruct (checkpoint_path (self w)).
Qed.

Lemma contains_cache_for_eq x w :
  contains_cache_for x w =
    match checkpoint_path (self w) with
    | Some cp => (inr (bool_decide (is_Some (fs w !! entry_path (self w) cp x))), w)
    | None => (inl AttributeError, w)
    end.
Proof.
  unfold contains_cache_for, bind. rewrite get_cache_path_for_eq.
  destruct (checkpoint_path (self w)) as [cp|]; [|done].
  unfold os_path_exists, entry_path. by rewrite lookup_node_app.
Qed.

Lemma read_cache_eq x w :
  read_cache x w =
    match checkpoint_path (self w) with
    | Some cp =>
        match fs w !! entry_path (self w) cp x with
        | Some (File data) =>
            match pickle_load data with
            | Some output => (inr output, w)
            | None => (inl UnpicklingError, w)
            end
        | Some Dir => (inl IsADirectoryError, w)
        | None => (inl (absent_error (fs w) (entry_path (self w) cp x)), w)
        end
    | None => (inl AttributeError, w)
    end.
Proof.
  unfold read_cache, bind. rewrite get_cache_path_for_eq.
  destruct (checkpoint_path (self w)) as [cp|]; [|done].
  unfold open_rb, entry_path. rewrite lookup_node_app.
  destruct (fs w !! _) as [[|data]|]; try done.
  unfold pickle_load_from. by destruct (pickle_load data).
Qed.

Lemma dump_after_open output p w :
  pickle_dump_to output p (log (CallOpenWb p) (set_fs (<[p := File []]> (fs w)) w)) =
    match pickle_dump output with
    | Dumped data => (inr (), file_written p data w)
    | DumpFailed written => (inl PicklingError, file_written p written w)
    end.
Proof.
  unfold pickle_dump_to, bind, file_write, raise, file_written, log, set_fs. simpl.
  destruct (pickle_dump output) as [data|data]; simpl;
    rewrite lookup_insert_eq; simpl; by rewrite insert_insert_eq.
Qed.

Lemma write_cache_eq x output w :
  write_cache x output w =
    match checkpoint_path (self w) with
    | Some cp =>
        let p := entry_path (self w) cp x in
        let go := match pickle_dump output with
                  | Dumped data => (inr (), file_written p data w)
                  | DumpFailed written => (inl PicklingError, file_written p written w)
                  end in
        match fs w !! p with
        | Some Dir => (inl IsADirectoryError, w)
        | Some (File _) => go
        | None =>
            match lookup_node (fs w) cp with
            | None => (inl (absent_error (fs w) cp), w)
            | Some (File _) => (inl NotADirectoryError, w)
            | Some Dir => go
            end
        end
    | None => (inl AttributeError, w)
    end.
Proof.
  unfold write_cache, bind. rewrite get_cache_path_for_eq.
  destruct (checkpoint_path (self w)) as [cp|]; [|done].
  unfold open_wb. cbv zeta. unfold entry_path.
  rewrite lookup_node_app, dirname_app.
  destruct (fs w !! (cp ++ _)) as [[|old]|]; try done.
  - rewrite dump_after_open. by destruct (pickle_dump output).
  - destruct (lookup_node (fs w) cp) as [[|?]|]; try done.
    rewrite dump_after_open. by destruct (pickle_dump output).
Qed.

(** *** [flush_cache] *)

Lemma lookup_flushed_below cp w q :
  cp `prefix_of` q → q ≠ cp → fs (flushed cp w) !! q = None.
Proof.
  intros Hpre Hne. unfold flushed. simpl.
  rewrite lookup_insert_ne by done.
  apply map_lookup_filter_None. right. intros n _ Hn. by apply Hn.
Qed.

Lemma lookup_flushed_self cp w : fs (flushed cp w) !! cp = Some Dir.
Proof. unfold flushed. simpl. by rewrite lookup_insert_eq. Qed.

Lemma lookup_flushed_outside cp w q :
  ¬ cp `prefix_of` q → fs (flushed cp w) !! q = fs w !! q.
Proof.
  intros Hpre. unfold flushed. simpl.
  rewrite lookup_insert_ne by (by intros ->).
  destruct (fs w !! q) as [n|] eqn:Hq.
  - by apply map_lookup_filter_Some.
  - apply map_lookup_filter_None. by left.
Qed.

Lemma dirname_not_below cp : cp ≠ [] → ¬ cp `prefix_of` dirname cp.
Proof.
  intros Hne Hpre. apply prefix_length in Hpre.
  unfold dirname in Hpre. rewrite length_take in Hpre.
  destruct cp; [done|]. simpl in Hpre. lia.
Qed.

Lemma flush_cache_ok cp w :
  checkpoint_path (self w) = Some cp →
  fs w !! cp = Some Dir →
  fs_wf (fs w) →
  flush_cache w = (inr (), flushed cp w).
Proof.
  intros Hcp Hdir Hwf.
  destruct (Hwf cp Dir Hdir) as [Hne Hparent].
  unfold flush_cache, bind, self_checkpoint_path, shutil_rmtree. rewrite Hcp.
  rewrite (lookup_node_Some_lookup _ _ _ Hdir Hwf). simpl. rewrite Hcp.
  unfold os_mkdir. simpl.
  assert (Hgone : lookup_node (filter (λ kv, ¬ cp `prefix_of` kv.1) (fs w)) cp = None).
  { destruct cp; [done|]. simpl. apply map_lookup_filter_None.
    right. intros n _ Hn. by apply Hn. }
  rewrite Hgone.
  assert (Hup : lookup_node (filter (λ kv, ¬ cp `prefix_of` kv.1) (fs w)) (dirname cp)
                = Some Dir).
  { pose proof (dirname_not_below cp Hne) as Hnb.
    destruct (dirname cp) as [|a q] eqn:Hd; [done|].
    simpl in *. by apply map_lookup_filter_Some. }
  rewrite Hup. unfold flushed, log, set_fs. simpl.
  by rewrite <- app_assoc.
Qed.

Lemma flush_cache_inv w w' :
  flush_cache w = (inr (), w') →
  ∃ cp, checkpoint_path (self w) = Some cp ∧ w' = flushed cp w.
Proof.
  unfold flush_cache, bind, self_checkpoint_path, shutil_rmtree.
  destruct (checkpoint_path (self w)) as [cp|] eqn:Hcp; [|done].
  destruct (lookup_node (fs w) cp) as [[|?]|]; try done.
  simpl. rewrite Hcp. unfold os_mkdir. simpl.
  destruct (lookup_node (filter _ (fs w)) cp); [done|].
  destruct (lookup_node (filter _ (fs w)) (dirname cp)) as [[|?]|]; try done.
  intros [= <-]. exists cp. split; [done|].
  unfold flushed, log, set_fs. simpl. by rewrite <- app_assoc.
Qed.

Lemma contains_after_flush cp w x :
  checkpoint_path (self w) = Some cp →
  contains_cache_for x (flushed cp w) = (inr false, flushed cp w).
Proof.
  intros Hcp. rewrite contains_cache_for_eq.
  change (self (flushed cp w)) with (self w). rewrite Hcp.
  rewrite lookup_flushed_below; [done|apply entry_path_prefix|apply entry_path_ne].
Qed.

(** A flush that fails has at most removed the tree. *)
Lemma flush_cache_failed cp w err w1 :
  checkpoint_path (self w) = Some cp →
  flush_cache w = (inl err, w1) →
  self w1 = self w ∧
  (calls w1 = calls w ∨ calls w1 = calls w ++ [CallRmtree cp]).
Proof.
  intros Hcp. unfold flush_cache. rewrite bind_run.
  unfold self_checkpoint_path at 1. rewrite Hcp, bind_run.
  unfold shutil_rmtree.
  destruct (lookup_node (fs w) cp) as [[|?]|];
    [|intros [= <- <-]; split; [done|by left]..].
  rewrite bind_run. unfold self_checkpoint_path. simpl. rewrite Hcp.
  unfold os_mkdir. simpl.
  destruct (lookup_node _ cp); [intros [= <- <-]; split; [done|by right]|].
  destruct (lookup_node _ (dirname cp)) as [[|?]|]; [done|..];
    intros [= <- <-]; split; done || by right.
Qed.

Lemma flush_cache_missing cp w :
  checkpoint_path (self w) = Some cp →
  lookup_node (fs w) cp = None →
  flush_cache w = (inl (absent_error (fs w) cp), w).
Proof.
  intros Hcp Hnone.
  unfold flush_cache, bind, self_checkpoint_path, shutil_rmtree.
  by rewrite Hcp, Hnone.
Qed.

(** *** The [for] loop *)

Local Abbreviation loop := _transform_with_cache_loop.

Lemma loop_cons_hit i x e rest acc w cp n :
  checkpoint_path (self w) = Some cp →
  fs w !! entry_path (self w) cp x = Some n →
  loop ((i, x, e) :: rest) acc w =
    match read_cache x w with
    | (inr cached, _) => loop rest (acc ++ cached) w
    | (inl err, _) => (inl err, w)
    end.
Proof.
  intros Hcp Hp. simpl. unfold bind at 1.
  rewrite contains_cache_for_eq, Hcp, Hp.
  rewrite bool_decide_eq_true_2 by eauto.
  unfold bind. rewrite read_cache_eq, Hcp, Hp.
  destruct n as [|data]; [done|]. by destruct (pickle_load data).
Qed.

Lemma loop_cons_miss i x e rest acc w cp :
  checkpoint_path (self w) = Some cp →
  fs w !! entry_path (self w) cp x = None →
  loop ((i, x, e) :: rest) acc w =
    let output := transform (wrapped (self w)) [x] in
    match write_cache x output (log (CallTransform [x]) w) with
    | (inr _, w') => loop rest (acc ++ output) w'
    | (inl err, w') => (inl err, w')
    end.
Proof.
  intros Hcp Hp. simpl. unfold bind at 1.
  rewrite contains_cache_for_eq, Hcp, Hp.
  rewrite bool_decide_eq_false_2 by (by intros [? ?]).
  unfold bind, wrapped_transform, ret.
  by destruct (write_cache _ _ _) as [[err|[]] w'].
Qed.

(** A hit: the stream of the entry loads. *)
Lemma loop_hit i x e rest acc w cp data cached :
  checkpoint_path (self w) = Some cp →
  fs w !! entry_path (self w) cp x = Some (File data) →
  pickle_load data = Some cached →
  loop ((i, x, e) :: rest) acc w = loop rest (acc ++ cached) w.
Proof.
  intros Hcp Hp Hload. rewrite (loop_cons_hit _ _ _ _ _ _ _ _ Hcp Hp).
  by rewrite read_cache_eq, Hcp, Hp, Hload.
Qed.

(** A miss whose output is stored. *)
Lemma loop_miss i x e rest acc w cp data :
  checkpoint_path (self w) = Some cp →
  fs w !! entry_path (self w) cp x = None →
  lookup_node (fs w) cp = Some Dir →
  pickle_dump (transform (wrapped (self w)) [x]) = Dumped data →
  loop ((i, x, e) :: rest) acc w =
    loop rest (acc ++ transform (wrapped (self w)) [x]) (stored cp x data w).
Proof.
  intros Hcp Hp Hdir Hdump. rewrite (loop_cons_miss _ _ _ _ _ _ _ Hcp Hp).
  cbv zeta. rewrite write_cache_eq. simpl. rewrite Hcp, Hp, Hdir, Hdump.
  cbv zeta. f_equal. unfold file_written, stored, log. simpl.
  by rewrite <- app_assoc.
Qed.

Lemma loop_frame_refl cp w : loop_frame cp w w.
Proof.
  split; [done|]. split; [done|]. exists []. rewrite app_nil_r.
  split; [done|]. split; [constructor|]. intros ? Hin. by apply elem_of_nil in Hin.
Qed.

Lemma loop_frame_trans cp w1 w2 w3 :
  loop_frame cp w1 w2 → loop_frame cp w2 w3 → loop_frame cp w1 w3.
Proof.
  intros (Hs1 & Hf1 & l1 & Hc1 & Hl1 & Ht1) (Hs2 & Hf2 & l2 & Hc2 & Hl2 & Ht2).
  split; [congruence|]. split; [by etrans|].
  exists (l1 ++ l2). split; [by rewrite Hc2, Hc1, app_assoc|].
  split; [by apply Forall_app|].
  intros inputs Hin. apply elem_of_app in Hin as [Hin|Hin]; [by apply Ht1|].
  destruct (Ht2 _ Hin) as (x & -> & Hx). exists x. split; [done|].
  rewrite Hs1 in Hx. by eapply lookup_weaken_None.
Qed.

Lemma loop_frame_stored cp x data w :
  fs w !! entry_path (self w) cp x = None → loop_frame cp w (stored cp x data w).
Proof.
  intros Hp. split; [done|]. split; [by apply insert_subseteq|].
  exists [CallTransform [x]; CallOpenWb (entry_path (self w) cp x)].
  split; [done|]. split; [by repeat constructor|].
  intros inputs Hin. apply elem_of_cons in Hin as [[= ->]|Hin]; [by exists x|].
  apply elem_of_cons in Hin as [[=]|Hin]. by apply elem_of_nil in Hin.
Qed.

(** The three ways an iteration can go. *)
Lemma loop_cons_cases i x e rest acc w cp :
  checkpoint_path (self w) = Some cp →
  (∃ data cached,
      fs w !! entry_path (self w) cp x = Some (File data) ∧
      pickle_load data = Some cached ∧
      loop ((i, x, e) :: rest) acc w = loop rest (acc ++ cached) w)
  ∨ (∃ data,
      fs w !! entry_path (self w) cp x = None ∧
      pickle_dump (transform (wrapped (self w)) [x]) = Dumped data ∧
      loop ((i, x, e) :: rest) acc w =
        loop rest (acc ++ transform (wrapped (self w)) [x]) (stored cp x data w))
  ∨ (∃ err w',
      loop ((i, x, e) :: rest) acc w = (inl err, w') ∧
      loop_frame cp w w' ∧
      (is_Some (fs w !! entry_path (self w) cp x) → w' = w)).
Proof.
  intros Hcp.
  pose proof (loop_frame_refl cp w) as Hrefl.
  destruct (fs w !! entry_path (self w) cp x) as [n|] eqn:Hp.
  - destruct n as [|data].
    + right. right. exists IsADirectoryError, w.
      rewrite (loop_cons_hit _ _ _ _ _ _ _ _ Hcp Hp), read_cache_eq, Hcp, Hp. done.
    + destruct (pickle_load data) as [cached|] eqn:Hload.
      * left. exists data, cached. split; [done|]. split; [done|].
        by apply (loop_hit _ _ _ _ _ _ cp data).
      * right. right. exists UnpicklingError, w.
        rewrite (loop_cons_hit _ _ _ _ _ _ _ _ Hcp Hp), read_cache_eq, Hcp, Hp, Hload. done.
  - destruct (lookup_node (fs w) cp) as [[|?]|] eqn:Hdir.
    + destruct (pickle_dump (transform (wrapped (self w)) [x])) as [data|data] eqn:Hdump.
      * right. left. exists data. split; [done|]. split; [done|].
        by apply loop_miss.
      * right. right.
        exists PicklingError,
          (file_written (entry_path (self w) cp x) data (log (CallTransform [x]) w)).
        rewrite (loop_cons_miss _ _ _ _ _ _ _ Hcp Hp). cbv zeta.
        rewrite write_cache_eq. simpl. rewrite Hcp, Hp, Hdir, Hdump.
        split; [done|]. split; [|by intros [? ?]].
        split; [done|]. split; [by apply insert_subseteq|].
        exists [CallTransform [x]; CallOpenWb (entry_path (self w) cp x)].
        simpl. rewrite <- app_assoc. split; [done|].
        split; [by repeat constructor|].
        intros inputs Hin. apply elem_of_cons in Hin as [[= ->]|Hin]; [by exists x|].
        apply elem_of_cons in Hin as [[=]|Hin]. by apply elem_of_nil in Hin.
    + right. right. exists NotADirectoryError, (log (CallTransform [x]) w).
      rewrite (loop_cons_miss _ _ _ _ _ _ _ Hcp Hp). cbv zeta.
      rewrite write_cache_eq. simpl. rewrite Hcp, Hp, Hdir.
      split; [done|]. split; [|by intros [? ?]].
      split; [done|]. split; [done|].
      exists [CallTransform [x]]. split; [done|]. split; [by repeat constructor|].
      intros inputs Hin. apply elem_of_cons in Hin as [[= ->]|Hin]; [by exists x|].
      by apply elem_of_nil in Hin.
    + right. right. exists (absent_error (fs w) cp), (log (CallTransform [x]) w).
      rewrite (loop_cons_miss _ _ _ _ _ _ _ Hcp Hp). cbv zeta.
      rewrite write_cache_eq. simpl. rewrite Hcp, Hp, Hdir.
      split; [done|]. split; [|by intros [? ?]].
      split; [done|]. split; [done|].
      exists [CallTransform [x]]. split; [done|]. split; [by repeat constructor|].
      intros inputs Hin. apply elem_of_cons in Hin as [[= ->]|Hin]; [by exists x|].
      by apply elem_of_nil in Hin.
Qed.

(** Whatever the outcome, the loop only adds entries. *)
Lemma loop_framed cp items acc w r w' :
  checkpoint_path (self w) = Some cp →
  loop items acc w = (r, w') →
  loop_frame cp w w'.
Proof.
  revert acc w. induction items as [|[[i x] e] rest IH]; intros acc w Hcp Hrun.
  - injection Hrun as _ <-. apply loop_frame_refl.
  - destruct (loop_cons_cases i x e rest acc w cp Hcp)
      as [(data & cached & Hp & Hload & Heq)|[(data & Hp & Hdump & Heq)|(err & w1 & Heq & Hfr & _)]].
    + rewrite Heq in Hrun. by eapply IH.
    + rewrite Heq in Hrun. eapply loop_frame_trans; [by apply loop_frame_stored|].
      by eapply IH.
    + rewrite Heq in Hrun. by injection Hrun as _ <-.
Qed.

(** The loop over [pre ++ post] is the loop over [pre], then over [post]
    on what [pre] gathered. *)
Lemma loop_app pre post acc w :
  loop (pre ++ post) acc w =
    match loop pre acc w with
    | (inr outputs, w1) => loop post outputs w1
    | (inl err, w1) => (inl err, w1)
    end.
Proof.
  revert acc w. induction pre as [|[[i x] e] pre IH]; intros acc w; [reflexivity|].
  simpl. rewrite !bind_run.
  destruct (contains_cache_for x w) as [[err|hit] w1]; [done|].
  rewrite !bind_run.
  match goal with
  | |- context [(if hit then ?a else ?b) w1] =>
      destruct ((if hit then a else b) w1) as [[err|outputs] w2]; [done|]
  end.
  apply IH.
Qed.

(** The outputs gathered before the loop stay in front. *)
Lemma loop_acc items acc w :
  loop items acc w =
    match loop items [] w with
    | (inr outputs, w') => (inr (acc ++ outputs), w')
    | (inl err, w') => (inl err, w')
    end.
Proof.
  revert acc w. induction items as [|[[i x] e] rest IH]; intros acc w.
  - simpl. unfold ret. by rewrite app_nil_r.
  - simpl. rewrite !bind_run.
    destruct (contains_cache_for x w) as [[err|hit] w1]; [done|].
    destruct hit; unfold bind, ret, wrapped_transform.
    + destruct (read_cache x w1) as [[err|cached] w2]; [done|].
      rewrite (IH (acc ++ cached)), (IH cached).
      destruct (loop rest [] w2) as [[err|outputs] w3]; [done|].
      by rewrite app_assoc.
    + destruct (write_cache _ _ _) as [[err|[]] w2]; [done|].
      rewrite (IH (acc ++ _)), (IH (transform _ _)).
      destruct (loop rest [] w2) as [[err|outputs] w3]; [done|].
      by rewrite app_assoc.
Qed.

(** After a run that succeeded, a second run over the same items, in any
    world that still has the files, reads every output from the cache:
    same outputs, and the world is left as it is. *)
Lemma loop_replay cp items acc w outputs w' :
  pickle_round_trip →
  checkpoint_path (self w) = Some cp →
  loop items acc w = (inr outputs, w') →
  ∀ w2, self w2 = self w → fs w' ⊆ fs w2 →
    loop items acc w2 = (inr outputs, w2).
Proof.
  intros Hrt. revert acc w.
  induction items as [|[[i x] e] rest IH]; intros acc w Hcp Hrun w2 Hself Hsub.
  - by injection Hrun as <- _.
  - assert (Hcp2 : checkpoint_path (self w2) = Some cp) by (by rewrite Hself).
    destruct (loop_cons_cases i x e rest acc w cp Hcp)
      as [(data & cached & Hp & Hload & Heq)|[(data & Hp & Hdump & Heq)|(err & w1 & Heq & _)]].
    + rewrite Heq in Hrun.
      destruct (loop_framed _ _ _ _ _ _ Hcp Hrun) as (_ & Hsub1 & _).
      rewrite (loop_hit i x e rest acc w2 cp data cached);
        [exact (IH _ w Hcp Hrun w2 Hself Hsub)|done| |done].
      rewrite Hself. eapply lookup_weaken; [|exact Hsub].
      by eapply lookup_weaken.
    + rewrite Heq in Hrun.
      destruct (loop_framed cp _ _ (stored cp x data w) _ _ Hcp Hrun) as (_ & Hsub1 & _).
      rewrite (loop_hit i x e rest acc w2 cp data (transform (wrapped (self w)) [x])).
      * exact (IH _ (stored cp x data w) Hcp Hrun w2 Hself Hsub).
      * done.
      * rewrite Hself. eapply lookup_weaken; [|exact Hsub].
        eapply lookup_weaken; [|exact Hsub1]. unfold stored. simpl.
        by rewrite lookup_insert_eq.
      * by apply Hrt.
    + by rewrite Heq in Hrun.
Qed.

(** In a run that succeeds, [transform] is called on the items whose hash
    has no entry yet, once for each hash, in the order of the batch. *)
Lemma loop_misses cp items acc w outputs w' seen :
  checkpoint_path (self w) = Some cp →
  loop items acc w = (inr outputs, w') →
  (∀ k, k ∈ seen ↔ is_Some (fs w !! (cp ++ [k +:+ ".pickle"]))) →
  ∃ l, calls w' = calls w ++ l ∧
       transform_calls l =
         map (λ x, [x]) (first_by_hash (value_hasher (self w)) seen (items_of items)).
Proof.
  revert acc w seen.
  induction items as [|[[i x] e] rest IH]; intros acc w seen Hcp Hrun Hseen.
  - injection Hrun as _ <-. exists []. by rewrite app_nil_r.
  - simpl.
    destruct (loop_cons_cases i x e rest acc w cp Hcp)
      as [(data & cached & Hp & Hload & Heq)|[(data & Hp & Hdump & Heq)|(err & w1 & Heq & _)]].
    + rewrite Heq in Hrun.
      rewrite decide_True by (apply Hseen; unfold entry_path in Hp; by rewrite Hp).
      exact (IH _ w seen Hcp Hrun Hseen).
    + rewrite Heq in Hrun.
      rewrite decide_False
        by (intros Hin; apply Hseen in Hin as [n Hn]; unfold entry_path in Hp; congruence).
      destruct (IH _ (stored cp x data w) (value_hasher (self w) x :: seen) Hcp Hrun)
        as (l & Hcalls & Htr).
      { intros k. unfold stored. simpl. rewrite elem_of_cons.
        destruct (decide (k = value_hasher (self w) x)) as [->|Hne].
        - unfold entry_path. rewrite lookup_insert_eq. split; [eauto|by left].
        - rewrite lookup_insert_ne.
          + rewrite <- Hseen. split; [by intros [?|?]|by right].
          + unfold entry_path. intros Heq1. apply app_inv_head in Heq1.
            injection Heq1 as Heq1. by apply string_app_inv_tail in Heq1. }
      exists ([CallTransform [x]; CallOpenWb (entry_path (self w) cp x)] ++ l).
      split; [by rewrite Hcalls; unfold stored; simpl; rewrite <- app_assoc|].
      simpl. by rewrite Htr.
    + by rewrite Heq in Hrun.
Qed.

(** After a run that succeeded every item of the batch has an entry that
    loads. *)
Lemma loop_all_readable cp triples acc w outputs w' :
  pickle_round_trip →
  checkpoint_path (self w) = Some cp →
  loop triples acc w = (inr outputs, w') →
  ∀ x, x ∈ items_of triples →
    ∃ data cached, fs w' !! entry_path (self w) cp x = Some (File data) ∧
                   pickle_load data = Some cached.
Proof.
  intros Hrt. revert acc w.
  induction triples as [|[[i x] e] rest IH]; intros acc w Hcp Hrun y Hy.
  - by apply elem_of_nil in Hy.
  - cbn [items_of map fst snd] in Hy.
    destruct (loop_cons_cases i x e rest acc w cp Hcp)
      as [(data & cached & Hp & Hload & Heq)|[(data & Hp & Hdump & Heq)|(err & w1 & Heq & _)]];
      rewrite Heq in Hrun; [| |done].
    + apply elem_of_cons in Hy as [->|Hy]; [|by eapply IH].
      destruct (loop_framed cp _ _ _ _ _ Hcp Hrun) as (_ & Hsub & _).
      exists data, cached. split; [by eapply lookup_weaken|done].
    + apply elem_of_cons in Hy as [->|Hy]; [|by eapply (IH _ (stored cp x data w))].
      destruct (loop_framed cp _ _ (stored cp x data w) _ _ Hcp Hrun) as (_ & Hsub & _).
      exists data, (transform (wrapped (self w)) [x]). split; [|by apply Hrt].
      eapply lookup_weaken; [|done]. simpl. by rewrite lookup_insert_eq.
Qed.

(** *** What each item of a batch is due *)

Lemma first_with_hash_app hasher h (l1 l2 : list value) :
  first_with_hash hasher h (l1 ++ l2) =
    match first_with_hash hasher h l1 with
    | Some x => Some x
    | None => first_with_hash hasher h l2
    end.
Proof.
  induction l1 as [|x l1 IH]; [done|]. simpl. by destruct (decide (hasher x = h)).
Qed.

Lemma first_with_hash_Some hasher h (l : list value) x :
  first_with_hash hasher h l = Some x → x ∈ l ∧ hasher x = h.
Proof.
  induction l as [|y l IH]; [done|]. simpl.
  destruct (decide (hasher y = h)) as [Hy|Hy].
  - intros [= <-]. split; [apply list_elem_of_here|done].
  - intros Hx. destruct (IH Hx). split; [by apply list_elem_of_further|done].
Qed.

Lemma yields_from_yields cp w0 items x chunk :
  checkpoint_path (self w0) = Some cp →
  yields_from cp w0 items x chunk → yields w0 items x chunk.
Proof.
  intros Hcp [(data & Hp & Hload)|(Hp & Hfirst)]; [left|right];
    rewrite contains_cache_for_eq, ?read_cache_eq, Hcp, Hp, ?Hload; split; try done.
Qed.

Lemma gone_through_hit cp w0 pre w x data :
  gone_through cp w0 pre w →
  fs w !! entry_path (self w0) cp x = Some (File data) →
  gone_through cp w0 (pre ++ [x]) w.
Proof.
  intros (Hself & Hold & Hnew) Hp. split; [done|]. split; [done|].
  intros y Hy. specialize (Hnew y Hy). rewrite first_with_hash_app.
  destruct (first_with_hash _ _ pre) as [x'|]; [done|]. simpl.
  destruct (decide (value_hasher (self w0) x = value_hasher (self w0) y)) as [Heq|Hne];
    [|done].
  unfold entry_path in Hp, Hnew. rewrite Heq in Hp. congruence.
Qed.

Lemma gone_through_miss cp w0 pre w x data :
  pickle_round_trip →
  gone_through cp w0 pre w →
  fs w !! entry_path (self w0) cp x = None →
  pickle_dump (transform (wrapped (self w0)) [x]) = Dumped data →
  gone_through cp w0 (pre ++ [x]) (stored cp x data w).
Proof.
  intros Hrt (Hself & Hold & Hnew) Hp Hdump.
  split; [done|]. cbn [stored fs]. rewrite Hself. split.
  - intros y n Hy. rewrite lookup_insert_ne; [by apply Hold|].
    intros Heq. rewrite Heq, (Hold y n Hy) in Hp. done.
  - intros y Hy. specialize (Hnew y Hy). rewrite first_with_hash_app. simpl.
    destruct (decide (value_hasher (self w0) x = value_hasher (self w0) y)) as [Heq|Hne].
    + assert (Hsame : entry_path (self w0) cp y = entry_path (self w0) cp x)
        by (unfold entry_path; by rewrite Heq).
      rewrite Hsame in Hnew |- *.
      destruct (first_with_hash _ _ pre) as [x'|].
      * destruct Hnew as (data' & Hp' & _). congruence.
      * rewrite lookup_insert_eq. exists data. split; [done|by apply Hrt].
    + rewrite lookup_insert_ne
        by (intros Heq; apply entry_path_inj in Heq; congruence).
      by destruct (first_with_hash _ _ pre).
Qed.

(** The outputs of the loop, item by item. *)
Lemma loop_yields cp w0 pre triples acc w outputs w' :
  pickle_round_trip →
  checkpoint_path (self w0) = Some cp →
  gone_through cp w0 pre w →
  loop triples acc w = (inr outputs, w') →
  ∃ chunks,
    outputs = acc ++ concat chunks ∧
    length chunks = length triples ∧
    ∀ k x, items_of triples !! k = Some x →
      ∃ chunk, chunks !! k = Some chunk ∧
               yields_from cp w0 (pre ++ items_of triples) x chunk.
Proof.
  intros Hrt Hcp0. revert pre acc w.
  induction triples as [|[[i x] e] rest IH]; intros pre acc w Hgone Hrun.
  - injection Hrun as <- _. exists []. by rewrite app_nil_r.
  - pose proof Hgone as (Hself & Hold & Hnew).
    assert (Hcp : checkpoint_path (self w) = Some cp) by (by rewrite Hself).
    change (items_of ((i, x, e) :: rest)) with (x :: items_of rest).
    assert (Hbatch : pre ++ x :: items_of rest = (pre ++ [x]) ++ items_of rest)
      by (by rewrite <- app_assoc).
    destruct (loop_cons_cases i x e rest acc w cp Hcp)
      as [(data & cached & Hp & Hload & Heq)|[(data & Hp & Hdump & Heq)|(err & w1 & Heq & _)]];
      rewrite Heq in Hrun; [| |done]; rewrite Hself in Hp.
    + destruct (IH (pre ++ [x]) _ _ (gone_through_hit _ _ _ _ _ _ Hgone Hp) Hrun)
        as (chunks & -> & Hlen & Hall).
      exists (cached :: chunks). split; [by rewrite <- app_assoc|].
      split; [by simpl; rewrite Hlen|].
      intros [|k] y Hy; [|rewrite Hbatch; by apply Hall].
      injection Hy as <-. exists cached. split; [done|].
      destruct (fs w0 !! entry_path (self w0) cp x) as [n|] eqn:Hp0.
      * left. exists data. rewrite (Hold _ _ Hp0) in Hp. by injection Hp as ->.
      * right. split; [done|]. specialize (Hnew x Hp0). rewrite first_with_hash_app.
        destruct (first_with_hash _ _ pre) as [x'|]; [|congruence].
        destruct Hnew as (data' & Hp' & Hload'). exists x'. split; [done|]. congruence.
    + rewrite Hself in Hdump.
      assert (Hp0 : fs w0 !! entry_path (self w0) cp x = None).
      { destruct (fs w0 !! entry_path (self w0) cp x) as [n|] eqn:Hp0; [|done].
        rewrite (Hold _ _ Hp0) in Hp. done. }
      destruct (IH (pre ++ [x]) _ _
                  (gone_through_miss _ _ _ _ _ _ Hrt Hgone Hp Hdump) Hrun)
        as (chunks & -> & Hlen & Hall).
      rewrite Hself.
      exists (transform (wrapped (self w0)) [x] :: chunks).
      split; [by rewrite <- app_assoc|]. split; [by simpl; rewrite Hlen|].
      intros [|k] y Hy; [|rewrite Hbatch; by apply Hall].
      injection Hy as <-. eexists. split; [done|]. right. split; [done|].
      exists x. split; [|done]. specialize (Hnew x Hp0). rewrite first_with_hash_app.
      destruct (first_with_hash _ _ pre) as [x'|].
      * destruct Hnew as (data' & Hp' & _). congruence.
      * simpl. by rewrite decide_True.
Qed.

(** *** The handlers *)

Lemma handle_transform_eq dc w :
  handle_transform dc w =
    match loop (dc_iter dc) [] w with
    | (inr outputs, w') =>
        (inr {| current_ids := step_hash (current_ids dc) (hyperparams_ (self w')) outputs;
                data_inputs := outputs;
                expected_outputs := expected_outputs dc |}, w')
    | (inl err, w') => (inl err, w')
    end.
Proof.
  unfold handle_transform, _transform_with_cache. rewrite bind_run.
  by destruct (loop (dc_iter dc) [] w) as [[err|outputs] w'].
Qed.

Lemma handle_fit_transform_eq dc w :
  handle_fit_transform dc w =
    match flush_cache w with
    | (inr _, w1) =>
        handle_transform dc (wrapped_fit (data_inputs dc) (expected_outputs dc) w1).2
    | (inl err, w1) => (inl err, w1)
    end.
Proof.
  unfold handle_fit_transform. rewrite bind_run.
  by destruct (flush_cache w) as [[err|[]] w1].
Qed.

Lemma loop_no_checkpoint_path t rest acc w :
  checkpoint_path (self w) = None →
  loop (t :: rest) acc w = (inl AttributeError, w).
Proof.
  intros Hcp. destruct t as [[i x] e]. simpl.
  by rewrite bind_run, contains_cache_for_eq, Hcp.
Qed.

Lemma os_mkdir_self q w : self (os_mkdir q w).2 = self w.
Proof.
  unfold os_mkdir. destruct (lookup_node (fs w) q); [done|].
  by destruct (lookup_node (fs w) (dirname q)) as [[|?]|].
Qed.

Lemma os_makedirs_rev_self rp w : self (os_makedirs_rev rp w).2 = self w.
Proof.
  revert w. induction rp as [|name rp IH]; intros w; [apply os_mkdir_self|].
  simpl. rewrite bind_run. unfold os_path_exists at 1. rewrite bind_run.
  destruct (negb _); [|apply os_mkdir_self].
  specialize (IH w).
  destruct (os_makedirs_rev rp w) as [[err|[]] w1]; simpl in IH.
  - destruct err; simpl; try done. by rewrite os_mkdir_self.
  - by rewrite os_mkdir_self.
Qed.

(** *** The claims *)

(** C9.  Every cache operation of [PickleValueCachingWrapper] reads
    [self.checkpoint_path].  On an instance on which
    [create_checkpoint_path] has not run the attribute does not exist, and
    [flush_cache], [get_cache_path_for], [contains_cache_for], [read_cache]
    and [write_cache] all raise [AttributeError] and change nothing;
    [setup] is what assigns the attribute, to the cache folder joined with
    the step path and [VALUE_CACHING]. *)
Theorem cache_operations_need_setup w :
  checkpoint_path (self w) = None →
  flush_cache w = (inl AttributeError, w) ∧
  (∀ x, get_cache_path_for x w = (inl AttributeError, w) ∧
        contains_cache_for x w = (inl AttributeError, w) ∧
        read_cache x w = (inl AttributeError, w) ∧
        ∀ output, write_cache x output w = (inl AttributeError, w)) ∧
  (∀ step_path,
      checkpoint_path (self (setup step_path w).2) =
        Some (cache_folder (self w) ++ step_path ++ [VALUE_CACHING])).
Proof.
  intros Hcp. split; [|split].
  - unfold flush_cache. by rewrite bind_run; unfold self_checkpoint_path; rewrite Hcp.
  - intros x. rewrite get_cache_path_for_eq, contains_cache_for_eq, read_cache_eq, Hcp.
    repeat split. intros output. by rewrite write_cache_eq, Hcp.
  - intros step_path. unfold setup, create_checkpoint_path.
    rewrite !bind_run. simpl.
    set (w1 := set_self _ w).
    unfold self_checkpoint_path at 1. simpl. rewrite !bind_run.
    unfold os_path_exists at 1. simpl. rewrite bind_run.
    destruct (negb _).
    + rewrite bind_run. unfold self_checkpoint_path at 1. simpl.
      pose proof (os_makedirs_rev_self
                    (reverse (cache_folder (self w) ++ step_path ++ [VALUE_CACHING])) w1) as Hs.
      unfold os_makedirs.
      destruct (os_makedirs_rev _ w1) as [[err|[]] v1]; simpl in *; [by rewrite Hs|].
      unfold self_checkpoint_path. rewrite Hs. simpl. by rewrite Hs.
    + done.
Qed.

(** The cache operations never assign an attribute of the wrapper. *)
Lemma cache_operations_keep_self x output w :
  self (flush_cache w).2 = self w ∧
  self (get_cache_path_for x w).2 = self w ∧
  self (contains_cache_for x w).2 = self w ∧
  self (read_cache x w).2 = self w ∧
  self (write_cache x output w).2 = self w.
Proof.
  rewrite get_cache_path_for_eq, contains_cache_for_eq, read_cache_eq, write_cache_eq.
  split; [|destruct (checkpoint_path (self w)) as [cp|]; [|done]].
  - unfold flush_cache. rewrite bind_run. unfold self_checkpoint_path at 1.
    destruct (checkpoint_path (self w)) as [cp|] eqn:Hcp; [|done].
    rewrite bind_run. unfold shutil_rmtree.
    destruct (lookup_node (fs w) cp) as [[|?]|]; try done.
    rewrite bind_run. unfold self_checkpoint_path. simpl. rewrite Hcp.
    by rewrite os_mkdir_self.
  - repeat split.
    + destruct (fs w !! _) as [[|data]|]; try done. by destruct (pickle_load data).
    + cbv zeta. destruct (fs w !! _) as [[|data]|]; try done.
      * by destruct (pickle_dump output).
      * destruct (lookup_node (fs w) cp) as [[|?]|]; try done.
        by destruct (pickle_dump output).
Qed.

(** C2.  After [write_cache x output] has succeeded, [contains_cache_for x]
    is true and [read_cache x] returns [output]: the stream written under
    the hash of [x] is the one read back, and [pickle.load] inverts
    [pickle.dump]. *)
Theorem write_then_read x output w w' :
  pickle_round_trip →
  write_cache x output w = (inr (), w') →
  contains_cache_for x w' = (inr true, w') ∧
  read_cache x w' = (inr output, w').
Proof.
  intros Hrt. rewrite write_cache_eq.
  destruct (checkpoint_path (self w)) as [cp|] eqn:Hcp; [|done]. cbv zeta.
  assert (Hgo : ∀ data, pickle_dump output = Dumped data →
            let w1 := file_written (entry_path (self w) cp x) data w in
            contains_cache_for x w1 = (inr true, w1) ∧ read_cache x w1 = (inr output, w1)).
  { intros data Hdump w1.
    assert (Hp : fs w1 !! entry_path (self w1) cp x = Some (File data))
      by (unfold w1, file_written; simpl; by rewrite lookup_insert_eq).
    rewrite contains_cache_for_eq, read_cache_eq. simpl. rewrite Hcp.
    simpl in Hp. rewrite Hp, (Hrt _ _ Hdump). done. }
  destruct (fs w !! _) as [[|old]|]; try done.
  - destruct (pickle_dump output) as [data|] eqn:Hdump; [|done].
    intros [= <-]. by apply Hgo.
  - destruct (lookup_node (fs w) cp) as [[|?]|]; try done.
    destruct (pickle_dump output) as [data|] eqn:Hdump; [|done].
    intros [= <-]. by apply Hgo.
Qed.

(** C6.  After [flush_cache] has returned, [contains_cache_for] is false
    for every item, whatever had been written before: every entry lies
    below the checkpoint path, which [shutil.rmtree] empties.  And the
    flush does return when the checkpoint path is a directory.
    The hasher is taken to give hashes that are file names, of one path
    component each. *)
Theorem flush_is_complete w :
  hashes_are_file_names (self w) →
  (∀ w', flush_cache w = (inr (), w') →
         ∀ x, contains_cache_for x w' = (inr false, w')) ∧
  (∀ cp, checkpoint_path (self w) = Some cp → fs w !! cp = Some Dir → fs_wf (fs w) →
         ∃ w', flush_cache w = (inr (), w')).
Proof.
  intros _.
  split.
  - intros w' Hflush x. apply flush_cache_inv in Hflush as (cp & Hcp & ->).
    by apply contains_after_flush.
  - intros cp Hcp Hdir Hwf. eexists. by apply flush_cache_ok.
Qed.

(** C5, as amended.  [flush_cache] succeeds and leaves an empty checkpoint
    directory when the directory exists: nothing is left below it, and
    nothing outside it has changed.  When the directory does not exist,
    [shutil.rmtree] raises: the flush fails and nothing has changed.  The
    error is [FileNotFoundError] when nothing on the way to the checkpoint
    path is a regular file, and [NotADirectoryError] otherwise. *)
Theorem flush_needs_the_directory cp w :
  checkpoint_path (self w) = Some cp →
  (fs w !! cp = Some Dir → fs_wf (fs w) →
   ∃ w', flush_cache w = (inr (), w') ∧
         fs w' !! cp = Some Dir ∧
         (∀ q, cp `prefix_of` q → q ≠ cp → fs w' !! q = None) ∧
         (∀ q, ¬ cp `prefix_of` q → fs w' !! q = fs w !! q)) ∧
  (lookup_node (fs w) cp = None →
   ∃ err, flush_cache w = (inl err, w) ∧
          (err = FileNotFoundError ∨ err = NotADirectoryError) ∧
          ((∀ q content, q `prefix_of` cp → fs w !! q ≠ Some (File content)) →
           err = FileNotFoundError)).
Proof.
  intros Hcp. split.
  - intros Hdir Hwf. exists (flushed cp w). split; [by apply flush_cache_ok|].
    split; [apply lookup_flushed_self|].
    split; [apply lookup_flushed_below|apply lookup_flushed_outside].
  - intros Hnone. exists (absent_error (fs w) cp).
    split; [by apply flush_cache_missing|].
    split; [apply absent_error_cases|apply absent_error_no_file].
Qed.

(** C8, as amended.  A [write_cache] that fails before the file is open
    leaves the world as it was.  One that fails in [pickle.dump] has
    already created the file, or cut it to length zero, and leaves in it
    the bytes put out before the failure: [contains_cache_for] is then
    true, and [read_cache] fails when these bytes do not load.  Nothing is
    written to a temporary file and renamed. *)
Theorem failed_write_outcome x output w err w' :
  write_cache x output w = (inl err, w') →
  (w' = w ∧ err ≠ PicklingError)
  ∨ (∃ cp written,
        checkpoint_path (self w) = Some cp ∧
        pickle_dump output = DumpFailed written ∧
        err = PicklingError ∧
        w' = file_written (entry_path (self w) cp x) written w ∧
        contains_cache_for x w' = (inr true, w') ∧
        (pickle_load written = None → read_cache x w' = (inl UnpicklingError, w'))).
Proof.
  rewrite write_cache_eq.
  destruct (checkpoint_path (self w)) as [cp|] eqn:Hcp; [|intros [= <- <-]; by left].
  cbv zeta.
  assert (Hgo : ∀ written, pickle_dump output = DumpFailed written →
            let w1 := file_written (entry_path (self w) cp x) written w in
            contains_cache_for x w1 = (inr true, w1) ∧
            (pickle_load written = None → read_cache x w1 = (inl UnpicklingError, w1))).
  { intros written Hdump w1.
    assert (Hp : fs w1 !! entry_path (self w1) cp x = Some (File written))
      by (unfold w1, file_written; simpl; by rewrite lookup_insert_eq).
    rewrite contains_cache_for_eq, read_cache_eq. simpl. rewrite Hcp.
    simpl in Hp. rewrite Hp. split; [done|]. by intros ->. }
  destruct (fs w !! _) as [[|old]|].
  - intros [= <- <-]. by left.
  - destruct (pickle_dump output) as [|written] eqn:Hdump; [done|].
    intros [= <- <-]. right. exists cp, written.
    destruct (Hgo written eq_refl) as [Hc Hr]. done.
  - destruct (lookup_node (fs w) cp) as [[|?]|];
      [|intros [= <- <-]; left; split; [done|done || apply absent_error_not_pickling]..].
    destruct (pickle_dump output) as [|written] eqn:Hdump; [done|].
    intros [= <- <-]. right. exists cp, written.
    destruct (Hgo written eq_refl) as [Hc Hr]. done.
Qed.

(** C3.  When [handle_transform] has succeeded on a batch, calling it again
    on the same batch, with nothing flushed in between, returns the same
    data container, hence the same outputs, and leaves the world as it is:
    no call is added, so [transform] of the wrapped step is not invoked.
    Every item of the batch is a hit in the second call: in the world the
    first call has left, [contains_cache_for] returns [True] for it and
    [read_cache] returns a list. *)
Theorem transform_twice dc w dc1 w1 :
  pickle_round_trip →
  handle_transform dc w = (inr dc1, w1) →
  handle_transform dc w1 = (inr dc1, w1) ∧
  transform_calls (calls (handle_transform dc w1).2) = transform_calls (calls w1) ∧
  ∀ x, x ∈ items_of (dc_iter dc) →
    contains_cache_for x w1 = (inr true, w1) ∧
    ∃ cached, read_cache x w1 = (inr cached, w1).
Proof.
  intros Hrt Hrun.
  assert (Hagain : handle_transform dc w1 = (inr dc1, w1)).
  { rewrite handle_transform_eq in Hrun. rewrite handle_transform_eq.
    destruct (loop (dc_iter dc) [] w) as [[err|outputs] w'] eqn:Hloop; [done|].
    injection Hrun as <- <-.
    destruct (checkpoint_path (self w)) as [cp|] eqn:Hcp.
    - destruct (loop_framed cp _ _ _ _ _ Hcp Hloop) as (Hself & _).
      by rewrite (loop_replay cp _ _ _ _ _ Hrt Hcp Hloop w' Hself).
    - destruct (dc_iter dc) as [|t rest].
      + by injection Hloop as <- <-.
      + by rewrite loop_no_checkpoint_path in Hloop. }
  split; [done|]. split; [by rewrite Hagain|].
  intros x Hx. rewrite handle_transform_eq in Hrun.
  destruct (loop (dc_iter dc) [] w) as [[err|outputs] w'] eqn:Hloop; [done|].
  injection Hrun as _ <-.
  destruct (checkpoint_path (self w)) as [cp|] eqn:Hcp.
  - destruct (loop_framed cp _ _ _ _ _ Hcp Hloop) as (Hself & _).
    destruct (loop_all_readable cp _ _ _ _ _ Hrt Hcp Hloop x Hx)
      as (data & cached & Hp & Hload).
    rewrite <- Hself in Hp.
    rewrite contains_cache_for_eq, read_cache_eq, Hself, Hcp.
    rewrite <- Hself, Hp, Hload. split; [done|by exists cached].
  - destruct (dc_iter dc) as [|t rest].
    + by apply elem_of_nil in Hx.
    + by rewrite loop_no_checkpoint_path in Hloop.
Qed.

Lemma concat_singletons {A} (chunks : list (list A)) k :
  Forall (λ chunk, length chunk = 1) chunks →
  k < length chunks →
  ∃ y, concat chunks !! k = Some y ∧ chunks !! k = Some [y].
Proof.
  intros Hall. revert k. induction Hall as [|chunk chunks Hone Hall IH]; intros k Hk.
  - simpl in Hk. lia.
  - destruct chunk as [|y [|? ?]]; try done. simpl.
    destruct k as [|k]; [by exists y|].
    simpl in Hk. apply IH. lia.
Qed.

(** C4.  The outputs of the loop are the outputs of the items, in the
    order of the items, whichever of them are hits and whichever misses:
    they are the concatenation, in the order of the batch, of one list for
    each item, and the list at an index is what the item at this index is
    due: for an item that has an entry when the loop starts, the list
    [read_cache] returns for it; for an item that has none, what
    [transform] of the wrapped step returns for the first item of the
    batch with its hash.  When the wrapped step returns one output for one
    item and the lists cached for items of the batch have one element, the
    output at an index is the one of the item at this index.
    The hasher is taken to give hashes that are file names, of one path
    component each, and [pickle.load] to give back what [pickle.dump] was
    given. *)
Theorem outputs_in_input_order dc w outputs w' :
  hashes_are_file_names (self w) →
  pickle_round_trip →
  _transform_with_cache dc w = (inr outputs, w') →
  ∃ chunks,
    outputs = concat chunks ∧
    length chunks = length (dc_iter dc) ∧
    (∀ k x, items_of (dc_iter dc) !! k = Some x →
       ∃ chunk, chunks !! k = Some chunk ∧
                yields w (items_of (dc_iter dc)) x chunk) ∧
    ((∀ x, x ∈ items_of (dc_iter dc) →
           length (transform (wrapped (self w)) [x]) = 1) →
     (∀ x cached, x ∈ items_of (dc_iter dc) →
           read_cache x w = (inr cached, w) → length cached = 1) →
     length outputs = length (dc_iter dc) ∧
     ∀ k x, items_of (dc_iter dc) !! k = Some x →
       ∃ y, outputs !! k = Some y ∧ yields w (items_of (dc_iter dc)) x [y]).
Proof.
  intros _ Hrt. unfold _transform_with_cache. intros Hrun.
  destruct (checkpoint_path (self w)) as [cp|] eqn:Hcp; cycle 1.
  { destruct (dc_iter dc) as [|t rest]; [|by rewrite loop_no_checkpoint_path in Hrun].
    injection Hrun as <- _. exists []. split; [done|]. split; [done|].
    split; [by intros k x ?|]. intros _ _. split; [done|by intros k x ?]. }
  assert (Hstart : gone_through cp w [] w).
  { split; [done|]. split; [done|]. by intros x Hx. }
  destruct (loop_yields cp w [] _ _ _ _ _ Hrt Hcp Hstart Hrun)
    as (chunks & -> & Hlen & Hall).
  cbn [app] in Hall |- *.
  assert (Hdue : ∀ k x, items_of (dc_iter dc) !! k = Some x →
            ∃ chunk, chunks !! k = Some chunk ∧
                     yields w (items_of (dc_iter dc)) x chunk).
  { intros k x Hk. destruct (Hall k x Hk) as (chunk & Hchunk & Hy).
    exists chunk. split; [done|]. by eapply yields_from_yields. }
  exists chunks. split; [done|]. split; [done|]. split; [done|].
  intros Hstep Hcached.
  assert (Hone : Forall (λ chunk, length chunk = 1) chunks).
  { apply Forall_lookup. intros k chunk Hk.
    assert (Hlt : k < length (items_of (dc_iter dc))).
    { unfold items_of. rewrite length_map, <- Hlen. by eapply lookup_lt_Some. }
    destruct (lookup_lt_is_Some_2 _ _ Hlt) as [x Hx].
    destruct (Hdue k x Hx) as (chunk' & Hk' & Hy).
    assert (chunk' = chunk) as -> by congruence.
    assert (Hin : x ∈ items_of (dc_iter dc)) by (by eapply list_elem_of_lookup_2).
    destruct Hy as [[_ Hread]|(_ & x' & Hfirst & ->)].
    - by eapply Hcached.
    - apply Hstep. by apply first_with_hash_Some in Hfirst as [? _]. }
  split.
  - rewrite <- Hlen. clear -Hone. induction Hone as [|chunk chunks Hc Hone IH]; [done|].
    simpl. rewrite length_app, Hc, IH. done.
  - intros k x Hk. destruct (Hdue k x Hk) as (chunk & Hchunk & Hy).
    destruct (concat_singletons chunks k Hone) as (y & Hy1 & Hy2);
      [by eapply lookup_lt_Some|].
    exists y. split; [done|]. congruence.
Qed.

(** C7, as amended.  An entry whose stream does not load makes
    [read_cache] fail with the exception [pickle.load] raises (the module
    defines no error of its own for this), and makes [handle_transform]
    fail on every batch that has the item: with this exception, unless an
    earlier item of the batch has failed already, and then with the error
    of that item.  The entry is not taken for a miss: it is still there,
    unchanged, and [transform] has not been called on the item. *)
Theorem malformed_entry_fails cp x data w :
  checkpoint_path (self w) = Some cp →
  fs w !! entry_path (self w) cp x = Some (File data) →
  pickle_load data = None →
  contains_cache_for x w = (inr true, w) ∧
  read_cache x w = (inl UnpicklingError, w) ∧
  ∀ dc pre i e post,
    dc_iter dc = pre ++ (i, x, e) :: post →
    ∃ err w',
      handle_transform dc w = (inl err, w') ∧
      err = match loop pre [] w with
            | (inr _, _) => UnpicklingError
            | (inl earlier, _) => earlier
            end ∧
      fs w' !! entry_path (self w) cp x = Some (File data) ∧
      ∀ l, calls w' = calls w ++ l → CallTransform [x] ∉ l.
Proof.
  intros Hcp Hp Hload.
  rewrite contains_cache_for_eq, read_cache_eq, Hcp, Hp, Hload.
  split; [done|]. split; [done|].
  intros dc pre i e post Hiter.
  assert (Hframe : ∀ w1, loop_frame cp w w1 →
            fs w1 !! entry_path (self w) cp x = Some (File data) ∧
            ∀ l, calls w1 = calls w ++ l → CallTransform [x] ∉ l).
  { intros w1 (Hself & Hsub & l & Hcalls & _ & Htr). split; [by eapply lookup_weaken|].
    intros l' Hl'. rewrite Hcalls in Hl'. apply app_inv_head in Hl' as <-.
    intros Hin. destruct (Htr _ Hin) as (x' & [= <-] & Hnone). congruence. }
  rewrite handle_transform_eq, Hiter, loop_app.
  destruct (loop pre [] w) as [[err|before] w1] eqn:Hpre.
  - exists err, w1. split; [done|]. split; [done|].
    apply Hframe. by eapply loop_framed.
  - pose proof (loop_framed cp _ _ _ _ _ Hcp Hpre) as Hfr.
    destruct (Hframe w1 Hfr) as [Hp1 Hcalls]. destruct Hfr as (Hself & _).
    rewrite <- Hself in Hp1.
    assert (Hcp1 : checkpoint_path (self w1) = Some cp) by (by rewrite Hself).
    rewrite (loop_cons_hit _ _ _ _ _ _ _ _ Hcp1 Hp1), read_cache_eq, Hcp1, Hp1, Hload.
    exists UnpicklingError, w1. rewrite Hself in Hp1. done.
Qed.

(** C10.  The lookup goes by the hash of the item alone.  When the output
    of [a] is cached and [b] has the hash of [a], a batch that has [b] gets
    the cached output of [a] at the place of [b], and [transform] is called
    neither on [b] nor on [a], equal or not. *)
Theorem colliding_items_share_the_entry cp a b cached w :
  checkpoint_path (self w) = Some cp →
  value_hasher (self w) a = value_hasher (self w) b →
  read_cache a w = (inr cached, w) →
  ∀ dc pre i e post dc' w',
    dc_iter dc = pre ++ (i, b, e) :: post →
    handle_transform dc w = (inr dc', w') →
    ∃ before after w1 w2,
      loop pre [] w = (inr before, w1) ∧
      loop [(i, b, e)] [] w1 = (inr cached, w1) ∧
      loop post [] w1 = (inr after, w2) ∧
      data_inputs dc' = before ++ cached ++ after ∧
      ∀ l, calls w' = calls w ++ l → (CallTransform [b] ∉ l) ∧ (CallTransform [a] ∉ l).
Proof.
  intros Hcp Hhash Hread dc pre i e post dc' w' Hiter Hrun.
  rewrite read_cache_eq, Hcp in Hread.
  destruct (fs w !! entry_path (self w) cp a) as [[|data]|] eqn:Hpa; try done.
  destruct (pickle_load data) as [cached'|] eqn:Hload; [|done].
  injection Hread as ->.
  assert (Hpb : entry_path (self w) cp b = entry_path (self w) cp a)
    by (by apply entry_path_inj).
  rewrite handle_transform_eq, Hiter in Hrun.
  destruct (loop (pre ++ (i, b, e) :: post) [] w) as [[err|outputs] w2] eqn:Hloop; [done|].
  injection Hrun as <- <-.
  pose proof (loop_framed cp _ _ _ _ _ Hcp Hloop) as (_ & _ & l & Hcalls & _ & Htr).
  rewrite loop_app in Hloop.
  destruct (loop pre [] w) as [[err|before] w1] eqn:Hpre; [done|].
  destruct (loop_framed cp _ _ _ _ _ Hcp Hpre) as (Hself & Hsub & _).
  assert (Hcp1 : checkpoint_path (self w1) = Some cp) by (by rewrite Hself).
  assert (Hp1 : fs w1 !! entry_path (self w1) cp b = Some (File data)).
  { rewrite Hself, Hpb. by eapply lookup_weaken. }
  rewrite (loop_hit _ _ _ _ _ _ _ _ _ Hcp1 Hp1 Hload), loop_acc in Hloop.
  destruct (loop post [] w1) as [[err|after] w3] eqn:Hpost; [done|].
  injection Hloop as <- <-.
  exists before, after, w1, w3. split; [done|].
  split; [by rewrite (loop_hit _ _ _ _ _ _ _ _ _ Hcp1 Hp1 Hload)|].
  split; [done|]. split; [by rewrite <- app_assoc|].
  intros l' Hl'. rewrite Hcalls in Hl'. apply app_inv_head in Hl' as <-.
  split; intros Hin; destruct (Htr _ Hin) as (x' & [= <-] & Hnone); congruence.
Qed.

(** C1, as amended.  [handle_fit_transform] flushes first: when the flush
    fails, nothing is fitted and nothing written; when it has succeeded no
    item has an entry, and only then the wrapped step is fitted and, after
    that, the loop runs, from the empty cache.  There an item is a miss
    unless an earlier item of the batch has its hash: [transform] is
    called once for each hash of the batch, on the first item that has
    it, and the later ones are hits on the entry written in this call.
    The hasher is taken to give hashes that are file names, of one path
    component each. *)
Theorem fit_flushes_first cp dc w :
  hashes_are_file_names (self w) →
  checkpoint_path (self w) = Some cp →
  match flush_cache w with
  | (inl err, w1) =>
      handle_fit_transform dc w = (inl err, w1) ∧
      self w1 = self w ∧
      (calls w1 = calls w ∨ calls w1 = calls w ++ [CallRmtree cp])
  | (inr _, w1) =>
      calls w1 = calls w ++ [CallRmtree cp; CallMkdir cp] ∧
      (∀ x, contains_cache_for x w1 = (inr false, w1)) ∧
      ∃ l, calls (handle_fit_transform dc w).2 =
             calls w1 ++ CallFit (data_inputs dc) (expected_outputs dc) :: l ∧
           Forall (λ c, match c with
                        | CallTransform _ | CallOpenWb _ => True
                        | _ => False
                        end) l ∧
           ∀ dc', (handle_fit_transform dc w).1 = inr dc' →
             transform_calls l =
               map (λ x, [x])
                 (first_by_hash (value_hasher (self w)) [] (items_of (dc_iter dc)))
  end.
Proof.
  intros _.
  intros Hcp. rewrite handle_fit_transform_eq.
  destruct (flush_cache w) as [[err|[]] w1] eqn:Hflush.
  - split; [done|]. by eapply flush_cache_failed.
  - apply flush_cache_inv in Hflush as (cp' & Hcp' & ->).
    assert (cp' = cp) as -> by congruence.
    split; [done|]. split; [intros x; by apply contains_after_flush|].
    rewrite handle_transform_eq.
    set (w2 := (wrapped_fit (data_inputs dc) (expected_outputs dc) (flushed cp w)).2).
    assert (Hcp2 : checkpoint_path (self w2) = Some cp) by done.
    destruct (loop (dc_iter dc) [] w2) as [[err|outputs] w3] eqn:Hloop.
    + destruct (loop_framed cp _ _ _ _ _ Hcp2 Hloop) as (_ & _ & l & Hcalls & Hl & _).
      exists l. split; [|done]. simpl. rewrite Hcalls. unfold w2. simpl.
      by rewrite <- app_assoc.
    + destruct (loop_framed cp _ _ _ _ _ Hcp2 Hloop) as (_ & _ & l & Hcalls & Hl & _).
      exists l. split; [|split; [done|]].
      { simpl. rewrite Hcalls. unfold w2. simpl. by rewrite <- app_assoc. }
      intros _ _.
      destruct (loop_misses cp _ _ _ _ _ [] Hcp2 Hloop) as (l' & Hcalls' & Htr).
      { intros k. split; [by intros ?%elem_of_nil|].
        intros [n Hn]. unfold w2 in Hn. simpl in Hn.
        rewrite lookup_insert_ne in Hn
          by (intros Heq; apply (f_equal length) in Heq; rewrite length_app in Heq;
              simpl in Heq; lia).
        apply map_lookup_filter_Some in Hn as [_ Hn]. exfalso. apply Hn.
        by apply prefix_app_r. }
      rewrite Hcalls in Hcalls'. apply app_inv_head in Hcalls' as <-. exact Htr.
Qed.

(** *** Beyond the claims: [setup] and [os.makedirs] *)

Lemma lookup_node_insert_Dir m p q :
  lookup_node m q = Some Dir → lookup_node (<[p := Dir]> m) q = Some Dir.
Proof.
  destruct q as [|a q]; [done|]. simpl. intros Hq.
  destruct (decide (p = a :: q)) as [->|Hne].
  - by rewrite lookup_insert_eq.
  - by rewrite lookup_insert_ne.
Qed.

Lemma fs_wf_insert_Dir m p :
  fs_wf m → p ≠ [] → lookup_node m (dirname p) = Some Dir → fs_wf (<[p := Dir]> m).
Proof.
  intros Hwf Hne Hparent. apply map_Forall_insert_2.
  - split; [done|]. by apply lookup_node_insert_Dir.
  - intros q n Hq. destruct (Hwf q n Hq) as [Hq1 Hq2].
    split; [done|]. by apply lookup_node_insert_Dir.
Qed.

(** What a [mkdir] that succeeds has found and done. *)
Lemma os_mkdir_inv p w w' :
  os_mkdir p w = (inr (), w') →
  lookup_node (fs w) p = None ∧
  lookup_node (fs w) (dirname p) = Some Dir ∧
  w' = log (CallMkdir p) (set_fs (<[p := Dir]> (fs w)) w).
Proof.
  unfold os_mkdir. destruct (lookup_node (fs w) p); [done|].
  destruct (lookup_node (fs w) (dirname p)) as [[|?]|]; try done.
  by intros [= <-].
Qed.

Lemma os_mkdir_wf p w : fs_wf (fs w) → fs_wf (fs (os_mkdir p w).2).
Proof.
  intros Hwf. unfold os_mkdir.
  destruct (lookup_node (fs w) p) eqn:Hp; [done|].
  destruct (lookup_node (fs w) (dirname p)) as [[|?]|] eqn:Hd; try done.
  simpl. apply fs_wf_insert_Dir; [done| |done]. by intros ->.
Qed.

Lemma os_makedirs_rev_wf rp w : fs_wf (fs w) → fs_wf (fs (os_makedirs_rev rp w).2).
Proof.
  revert w. induction rp as [|name rp IH]; intros w Hwf; [by apply os_mkdir_wf|].
  simpl. rewrite bind_run. unfold os_path_exists at 1. rewrite bind_run.
  destruct (negb _); [|by apply os_mkdir_wf].
  specialize (IH w Hwf).
  destruct (os_makedirs_rev rp w) as [[err|[]] w1]; simpl in IH.
  - destruct err; simpl; try done. by apply os_mkdir_wf.
  - by apply os_mkdir_wf.
Qed.

(** A [makedirs] that returns has made its directory. *)
Lemma os_makedirs_rev_made rp w w' :
  os_makedirs_rev rp w = (inr (), w') → fs w' !! reverse rp = Some Dir.
Proof.
  assert (Hlast : ∀ p v, os_mkdir p v = (inr (), w') → fs w' !! p = Some Dir).
  { intros p v (_ & _ & ->)%os_mkdir_inv. simpl. by rewrite lookup_insert_eq. }
  destruct rp as [|name rp]; [by apply Hlast|].
  simpl. rewrite bind_run. unfold os_path_exists at 1. rewrite bind_run.
  destruct (negb _); [|by apply Hlast].
  destruct (os_makedirs_rev rp w) as [[err|[]] w1].
  - destruct err; try done. by apply Hlast.
  - by apply Hlast.
Qed.

(** When nothing on the way is a regular file, [makedirs] makes the
    directories that are missing and nothing else. *)
Lemma os_makedirs_rev_ok rp w :
  fs_wf (fs w) →
  lookup_node (fs w) (reverse rp) = None →
  (∀ q content, q `prefix_of` reverse rp → fs w !! q ≠ Some (File content)) →
  ∃ w', os_makedirs_rev rp w = (inr (), w') ∧
        fs w ⊆ fs w' ∧
        (∀ q, fs w' !! q = fs w !! q
              ∨ (q `prefix_of` reverse rp ∧ fs w !! q = None ∧ fs w' !! q = Some Dir)).
Proof.
  revert w. induction rp as [|name rp IH]; intros w Hwf Habsent Hfiles; [done|].
  rewrite reverse_cons in Habsent, Hfiles |- *.
  assert (Hp : fs w !! (reverse rp ++ [name]) = None)
    by (by rewrite <- lookup_node_app).
  assert (Hstep : ∀ v, self v = self w →
            fs v !! (reverse rp ++ [name]) = None →
            lookup_node (fs v) (reverse rp) = Some Dir →
            os_mkdir (reverse (name :: rp)) v
            = (inr (), log (CallMkdir (reverse rp ++ [name]))
                         (set_fs (<[reverse rp ++ [name] := Dir]> (fs v)) v))).
  { intros v _ Hv Hd. rewrite reverse_cons. unfold os_mkdir.
    by rewrite lookup_node_app, Hv, dirname_app, Hd. }
  simpl. rewrite bind_run. unfold os_path_exists at 1. rewrite bind_run.
  destruct (lookup_node (fs w) (reverse rp)) as [n|] eqn:Hhead.
  - rewrite bool_decide_eq_true_2 by eauto. simpl.
    assert (n = Dir) as ->.
    { destruct (reverse rp) as [|a q] eqn:Hq; [by injection Hhead as <-|].
      simpl in Hhead. destruct n as [|content]; [done|].
      exfalso. eapply (Hfiles (a :: q)); [by apply prefix_app_r|done]. }
    rewrite (Hstep w eq_refl Hp Hhead). eexists. split; [done|]. simpl.
    split; [by apply insert_subseteq|].
    intros q. destruct (decide (q = reverse rp ++ [name])) as [->|Hne].
    + right. by rewrite lookup_insert_eq.
    + left. by rewrite lookup_insert_ne.
  - rewrite bool_decide_eq_false_2 by (by intros [? ?]). simpl.
    destruct (IH w Hwf Hhead) as (w1 & Hrun & Hsub & Honly).
    { intros q content Hq. apply Hfiles. etrans; [done|]. by apply prefix_app_r. }
    rewrite Hrun.
    pose proof (os_makedirs_rev_self rp w) as Hself. rewrite Hrun in Hself.
    pose proof (os_makedirs_rev_made _ _ _ Hrun) as Hmade.
    assert (Hp1 : fs w1 !! (reverse rp ++ [name]) = None).
    { destruct (Honly (reverse rp ++ [name])) as [->|(Hpre & _)]; [done|].
      apply prefix_length in Hpre. rewrite length_app in Hpre. simpl in Hpre. lia. }
    assert (Hd1 : lookup_node (fs w1) (reverse rp) = Some Dir).
    { destruct (reverse rp); [done|]. done. }
    rewrite (Hstep w1 Hself Hp1 Hd1). eexists. split; [done|]. simpl.
    split; [etrans; [done|]; by apply insert_subseteq|].
    intros q. destruct (decide (q = reverse rp ++ [name])) as [->|Hne].
    + right. by rewrite lookup_insert_eq.
    + rewrite lookup_insert_ne by done.
      destruct (Honly q) as [Hq|(Hpre & Hq1 & Hq2)]; [by left|].
      right. split; [|done]. etrans; [done|]. by apply prefix_app_r.
Qed.

Lemma set_self_self w : set_self (self w) w = w.
Proof. by destruct w. Qed.

(** [setup], in one equation: the attribute is assigned, and the
    directories are made unless the path exists. *)
Lemma setup_eq step_path w :
  setup step_path w =
    if bool_decide (is_Some (lookup_node (fs w) (checkpoint_of (self w) step_path)))
    then (inr (), assigned step_path w)
    else match os_makedirs (checkpoint_of (self w) step_path) (assigned step_path w) with
         | (inr _, w') => (inr (), w')
         | (inl err, w') => (inl err, w')
         end.
Proof.
  unfold setup, create_checkpoint_path. rewrite !bind_run.
  fold (checkpoint_of (self w) step_path). fold (assigned step_path w).
  unfold self_checkpoint_path at 1. cbn [self assigned set_self checkpoint_path].
  rewrite bind_run. unfold os_path_exists at 1. cbn [fs assigned set_self].
  rewrite bind_run.
  destruct (bool_decide _); simpl; [done|].
  rewrite bind_run. unfold self_checkpoint_path at 1.
  cbn [self assigned set_self checkpoint_path].
  pose proof (os_makedirs_rev_self (reverse (checkpoint_of (self w) step_path))
                (assigned step_path w)) as Hself.
  unfold os_makedirs.
  destruct (os_makedirs_rev _ (assigned step_path w)) as [[err|[]] w']; [done|].
  simpl in Hself. unfold self_checkpoint_path. by rewrite Hself.
Qed.

Lemma checkpoint_of_lookup m o step_path :
  lookup_node m (checkpoint_of o step_path) = m !! checkpoint_of o step_path.
Proof. unfold checkpoint_of. rewrite app_assoc. apply lookup_node_app. Qed.

(** X1.  On a well-formed file system in which nothing on the way to the
    checkpoint path is a regular file, [setup] returns normally: the
    attribute is assigned, the checkpoint path is a directory afterwards,
    and the only change to the file system is that the directories that
    were missing on the way have been made. *)
Theorem setup_makes_the_directory step_path w :
  fs_wf (fs w) →
  (∀ q content, q `prefix_of` checkpoint_of (self w) step_path →
                fs w !! q ≠ Some (File content)) →
  ∃ w', setup step_path w = (inr (), w') ∧
        checkpoint_path (self w') = Some (checkpoint_of (self w) step_path) ∧
        fs w' !! checkpoint_of (self w) step_path = Some Dir ∧
        fs_wf (fs w') ∧
        ∀ q, fs w' !! q = fs w !! q
             ∨ (q `prefix_of` checkpoint_of (self w) step_path ∧
                fs w !! q = None ∧ fs w' !! q = Some Dir).
Proof.
  intros Hwf Hfiles. rewrite setup_eq. rewrite checkpoint_of_lookup.
  destruct (fs w !! checkpoint_of (self w) step_path) as [n|] eqn:Hcp.
  - rewrite bool_decide_eq_true_2 by eauto.
    exists (assigned step_path w). split; [done|]. split; [done|].
    destruct n as [|content]; [|by destruct (Hfiles _ content (reflexivity _))].
    split; [done|]. split; [done|]. intros q. by left.
  - rewrite bool_decide_eq_false_2 by (by intros [? ?]).
    unfold os_makedirs.
    destruct (os_makedirs_rev_ok (reverse (checkpoint_of (self w) step_path))
                (assigned step_path w)) as (w' & Hrun & Hsub & Honly).
    { done. }
    { by rewrite reverse_involutive, checkpoint_of_lookup. }
    { by rewrite reverse_involutive. }
    rewrite reverse_involutive in Honly.
    pose proof (os_makedirs_rev_self (reverse (checkpoint_of (self w) step_path))
                  (assigned step_path w)) as Hself.
    pose proof (os_makedirs_rev_wf (reverse (checkpoint_of (self w) step_path))
                  (assigned step_path w) Hwf) as Hwf'.
    pose proof (os_makedirs_rev_made _ _ _ Hrun) as Hmade.
    rewrite reverse_involutive in Hmade.
    rewrite Hrun in Hself, Hwf' |- *. simpl in Hself, Hwf'.
    exists w'. split; [done|]. split; [by rewrite Hself|]. done.
Qed.

(** X2.  [setup] is idempotent: once it has returned normally, a second
    [setup] for the same step path finds the checkpoint path and changes
    nothing, neither the wrapper nor the file system nor the calls made. *)
Theorem setup_twice step_path w w1 :
  setup step_path w = (inr (), w1) →
  setup step_path w1 = (inr (), w1).
Proof.
  intros Hrun.
  assert (Hw1 : self w1 = self (assigned step_path w) ∧
                is_Some (lookup_node (fs w1) (checkpoint_of (self w) step_path))).
  { rewrite setup_eq in Hrun.
    destruct (bool_decide _) eqn:Hex.
    - injection Hrun as <-. split; [done|]. by apply bool_decide_eq_true_1 in Hex.
    - unfold os_makedirs in Hrun.
      pose proof (os_makedirs_rev_self (reverse (checkpoint_of (self w) step_path))
                    (assigned step_path w)) as Hself.
      destruct (os_makedirs_rev _ (assigned step_path w)) as [[err|[]] w'] eqn:Hmk; [done|].
      injection Hrun as <-. split; [done|].
      apply os_makedirs_rev_made in Hmk. rewrite reverse_involutive in Hmk.
      rewrite checkpoint_of_lookup. eauto. }
  destruct Hw1 as [Hself Hex].
  assert (Hcp : checkpoint_of (self w1) step_path = checkpoint_of (self w) step_path)
    by (unfold checkpoint_of; by rewrite Hself).
  rewrite setup_eq, Hcp, bool_decide_eq_true_2 by done.
  f_equal. unfold assigned. rewrite Hcp. rewrite Hself at 1 2 3 4.
  cbn [self assigned set_self wrapped value_hasher cache_folder hyperparams_].
  change (set_self (self (assigned step_path w)) w1 = w1).
  rewrite <- Hself. apply set_self_self.
Qed.

(** X3.  [setup] only asks whether the checkpoint path exists, not whether
    it is a directory: when it is a regular file, [setup] returns normally
    without touching the file system, and it is the next [flush_cache],
    hence the next [handle_fit_transform], that raises
    [NotADirectoryError]. *)
Theorem setup_on_a_regular_file step_path content w :
  fs w !! checkpoint_of (self w) step_path = Some (File content) →
  setup step_path w = (inr (), assigned step_path w) ∧
  flush_cache (assigned step_path w) = (inl NotADirectoryError, assigned step_path w) ∧
  ∀ dc, handle_fit_transform dc (assigned step_path w)
        = (inl NotADirectoryError, assigned step_path w).
Proof.
  intros Hfile.
  assert (Hflush : flush_cache (assigned step_path w)
                   = (inl NotADirectoryError, assigned step_path w)).
  { unfold flush_cache. rewrite bind_run. unfold self_checkpoint_path at 1.
    cbn [self assigned set_self checkpoint_path]. rewrite bind_run.
    unfold shutil_rmtree. cbn [fs assigned set_self].
    by rewrite checkpoint_of_lookup, Hfile. }
  split; [|split; [done|]].
  - rewrite setup_eq, checkpoint_of_lookup, Hfile.
    by rewrite bool_decide_eq_true_2 by eauto.
  - intros dc. by rewrite handle_fit_transform_eq, Hflush.
Qed.

(** X4.  [setup] prepares [flush_cache]: after a [setup] that has returned
    normally on a well-formed file system whose checkpoint path was not a
    regular file, [flush_cache] returns normally and leaves no entry.
    The hasher is taken to give hashes that are file names, of one path
    component each. *)
Theorem flush_after_setup step_path w w1 :
  hashes_are_file_names (self w) →
  fs_wf (fs w) →
  (∀ content, fs w !! checkpoint_of (self w) step_path ≠ Some (File content)) →
  setup step_path w = (inr (), w1) →
  ∃ w2, flush_cache w1 = (inr (), w2) ∧
        ∀ x, contains_cache_for x w2 = (inr false, w2).
Proof.
  intros _.
  intros Hwf Hfile Hrun.
  assert (Hw1 : checkpoint_path (self w1) = Some (checkpoint_of (self w) step_path) ∧
                fs w1 !! checkpoint_of (self w) step_path = Some Dir ∧
                fs_wf (fs w1)).
  { rewrite setup_eq, checkpoint_of_lookup in Hrun.
    destruct (fs w !! checkpoint_of (self w) step_path) as [n|] eqn:Hcp.
    - rewrite bool_decide_eq_true_2 in Hrun by eauto. injection Hrun as <-.
      destruct n as [|content]; [done|]. by destruct (Hfile content).
    - rewrite bool_decide_eq_false_2 in Hrun by (by intros [? ?]).
      unfold os_makedirs in Hrun.
      pose proof (os_makedirs_rev_self (reverse (checkpoint_of (self w) step_path))
                    (assigned step_path w)) as Hself.
      pose proof (os_makedirs_rev_wf (reverse (checkpoint_of (self w) step_path))
                    (assigned step_path w) Hwf) as Hwf'.
      destruct (os_makedirs_rev _ (assigned step_path w)) as [[err|[]] w'] eqn:Hmk; [done|].
      injection Hrun as <-. simpl in Hself, Hwf'.
      apply os_makedirs_rev_made in Hmk. rewrite reverse_involutive in Hmk.
      split; [by rewrite Hself|]. done. }
  destruct Hw1 as (Hcp & Hdir & Hwf1).
  exists (flushed (checkpoint_of (self w) step_path) w1).
  split; [by apply flush_cache_ok|]. intros x. by apply contains_after_flush.
Qed.

(** *** Beyond the claims: one operation at a time *)

(** X5.  Two items are stored in the same file exactly when the hasher
    gives them the same hash; the file lies in the checkpoint directory.
    The hasher is taken to give hashes that are file names, of one path
    component each. *)
Theorem same_file_iff_same_hash x y w p1 p2 w1 w2 :
  hashes_are_file_names (self w) →
  get_cache_path_for x w = (inr p1, w1) →
  get_cache_path_for y w = (inr p2, w2) →
  (p1 = p2 ↔ value_hasher (self w) x = value_hasher (self w) y) ∧
  checkpoint_path (self w) = Some (dirname p1) ∧
  w1 = w.
Proof.
  intros _.
  rewrite !get_cache_path_for_eq.
  destruct (checkpoint_path (self w)) as [cp|]; [|done].
  intros [= <- <-] [= <- <-]. split; [apply entry_path_inj|].
  unfold entry_path. by rewrite dirname_app.
Qed.


(** X7.  [write_cache] touches the entry of its item only: whether it
    returns or raises, what [contains_cache_for] and [read_cache] give for
    an item with another hash is what they gave before.
    The hasher is taken to give hashes that are file names, of one path
    component each. *)
Theorem write_leaves_other_entries x output z w r w' :
  hashes_are_file_names (self w) →
  write_cache x output w = (r, w') →
  value_hasher (self w) z ≠ value_hasher (self w) x →
  (contains_cache_for z w').1 = (contains_cache_for z w).1 ∧
  (read_cache z w').1 = (read_cache z w).1.
Proof.
  intros _.
  intros Hrun Hhash.
  rewrite !contains_cache_for_eq, !read_cache_eq.
  rewrite write_cache_eq in Hrun.
  destruct (checkpoint_path (self w)) as [cp|] eqn:Hcp;
    [|injection Hrun as _ <-; by rewrite Hcp].
  cbv zeta in Hrun.
  assert (Hne : entry_path (self w) cp x ≠ entry_path (self w) cp z)
    by (intros Heq; apply entry_path_inj in Heq; congruence).
  assert (Hgo : ∀ data, w' = file_written (entry_path (self w) cp x) data w →
            self w' = self w ∧
            ∀ q, q ≠ entry_path (self w) cp x → fs w' !! q = fs w !! q).
  { intros data ->. split; [done|]. intros q Hq. simpl. by rewrite lookup_insert_ne. }
  assert (Hsame : self w' = self w ∧
            ∀ q, q ≠ entry_path (self w) cp x → fs w' !! q = fs w !! q).
  { destruct (fs w !! entry_path (self w) cp x) as [[|old]|].
    - by injection Hrun as _ <-.
    - destruct (pickle_dump output) as [data|data]; injection Hrun as _ <-; by eapply Hgo.
    - destruct (lookup_node (fs w) cp) as [[|?]|]; try by injection Hrun as _ <-.
      destruct (pickle_dump output) as [data|data]; injection Hrun as _ <-; by eapply Hgo. }
  destruct Hsame as [Hself Hfs]. rewrite Hself, Hcp, (Hfs _ (not_eq_sym Hne)).
  assert (Herr : absent_error (fs w') (entry_path (self w) cp z)
                 = absent_error (fs w) (entry_path (self w) cp z)).
  { apply walk_error_agree. intros q Hq. apply Hfs. intros ->.
    unfold entry_path in Hq. simpl in Hq. rewrite !length_app in Hq. simpl in Hq. lia. }
  rewrite Herr.
  destruct (fs w !! entry_path (self w) cp z) as [[|data]|]; try done.
  by destruct (pickle_load data).
Qed.

(** X8.  [flush_cache] is idempotent: after a flush that has returned, a
    second one returns as well and leaves the same file system. *)
Theorem flush_twice w w1 :
  flush_cache w = (inr (), w1) →
  ∃ w2, flush_cache w1 = (inr (), w2) ∧ fs w2 = fs w1.
Proof.
  unfold flush_cache at 1. rewrite bind_run. unfold self_checkpoint_path at 1.
  destruct (checkpoint_path (self w)) as [cp|] eqn:Hcp; [|done].
  rewrite bind_run. unfold shutil_rmtree.
  destruct (lookup_node (fs w) cp) as [[|?]|]; try done.
  rewrite bind_run. unfold self_checkpoint_path. simpl. rewrite Hcp.
  intros (Hgone & Hparent & ->)%os_mkdir_inv. simpl in Hgone, Hparent.
  assert (Hne : cp ≠ []) by (by intros ->).
  set (m := filter (λ kv : path * node, ¬ cp `prefix_of` kv.1) (fs w)) in *.
  assert (Hm : filter (λ kv : path * node, ¬ cp `prefix_of` kv.1) (<[cp := Dir]> m) = m).
  { apply map_eq. intros q.
    destruct (m !! q) as [n|] eqn:Hq.
    - apply map_lookup_filter_Some. unfold m in Hq.
      apply map_lookup_filter_Some in Hq as [Hq Hpre].
      split; [|done]. rewrite lookup_insert_ne by (by intros ->).
      by apply map_lookup_filter_Some.
    - apply map_lookup_filter_None.
      destruct (decide (q = cp)) as [->|Hqne].
      + right. intros n _ Hn. by apply Hn.
      + left. by rewrite lookup_insert_ne. }
  eexists. split.
  - unfold flush_cache. rewrite bind_run. unfold self_checkpoint_path at 1.
    simpl. rewrite Hcp, bind_run. unfold shutil_rmtree. simpl.
    assert (Hdir : lookup_node (<[cp := Dir]> m) cp = Some Dir)
      by (destruct cp; [done|]; simpl; by rewrite lookup_insert_eq).
    rewrite Hdir, bind_run. unfold self_checkpoint_path. simpl. rewrite Hcp.
    unfold os_mkdir. simpl. rewrite Hm, Hgone, Hparent. done.
  - done.
Qed.

(** *** Beyond the claims: the loop and the handlers *)

(** The three ways an iteration can go, with what a failing one leaves. *)
Lemma loop_cons_outcomes i x e rest acc w cp :
  checkpoint_path (self w) = Some cp →
  (∃ data cached,
      fs w !! entry_path (self w) cp x = Some (File data) ∧
      pickle_load data = Some cached ∧
      loop ((i, x, e) :: rest) acc w = loop rest (acc ++ cached) w)
  ∨ (∃ data,
      fs w !! entry_path (self w) cp x = None ∧
      pickle_dump (transform (wrapped (self w)) [x]) = Dumped data ∧
      loop ((i, x, e) :: rest) acc w =
        loop rest (acc ++ transform (wrapped (self w)) [x]) (stored cp x data w))
  ∨ (∃ err w',
      loop ((i, x, e) :: rest) acc w = (inl err, w') ∧
      (w' = w
       ∨ (fs w !! entry_path (self w) cp x = None ∧
          (w' = log (CallTransform [x]) w
           ∨ ∃ data, w' = file_written (entry_path (self w) cp x) data
                            (log (CallTransform [x]) w))))).
Proof.
  intros Hcp.
  destruct (fs w !! entry_path (self w) cp x) as [n|] eqn:Hp.
  - destruct n as [|data].
    + right. right. exists IsADirectoryError, w.
      rewrite (loop_cons_hit _ _ _ _ _ _ _ _ Hcp Hp), read_cache_eq, Hcp, Hp.
      split; [done|by left].
    + destruct (pickle_load data) as [cached|] eqn:Hload.
      * left. exists data, cached. split; [done|]. split; [done|].
        by apply (loop_hit _ _ _ _ _ _ cp data).
      * right. right. exists UnpicklingError, w.
        rewrite (loop_cons_hit _ _ _ _ _ _ _ _ Hcp Hp), read_cache_eq, Hcp, Hp, Hload.
        split; [done|by left].
  - destruct (lookup_node (fs w) cp) as [[|?]|] eqn:Hdir.
    + destruct (pickle_dump (transform (wrapped (self w)) [x])) as [data|data] eqn:Hdump.
      * right. left. exists data. split; [done|]. split; [done|]. by apply loop_miss.
      * right. right. eexists _, _.
        rewrite (loop_cons_miss _ _ _ _ _ _ _ Hcp Hp). cbv zeta.
        rewrite write_cache_eq. simpl. rewrite Hcp, Hp, Hdir, Hdump.
        split; [done|]. right. split; [done|]. right. by exists data.
    + right. right. eexists _, _.
      rewrite (loop_cons_miss _ _ _ _ _ _ _ Hcp Hp). cbv zeta.
      rewrite write_cache_eq. simpl. rewrite Hcp, Hp, Hdir.
      split; [done|]. right. split; [done|]. by left.
    + right. right. eexists _, _.
      rewrite (loop_cons_miss _ _ _ _ _ _ _ Hcp Hp). cbv zeta.
      rewrite write_cache_eq. simpl. rewrite Hcp, Hp, Hdir.
      split; [done|]. right. split; [done|]. by left.
Qed.

(** Whatever the outcome, the files the loop adds are entries of items of
    the batch that had none, and its calls to [transform] are on one such
    item each. *)
Lemma loop_touched cp triples acc w r w' :
  checkpoint_path (self w) = Some cp →
  loop triples acc w = (r, w') →
  (∀ q, fs w' !! q = fs w !! q
        ∨ ∃ x data, x ∈ items_of triples ∧ q = entry_path (self w) cp x ∧
                    fs w !! q = None ∧ fs w' !! q = Some (File data)) ∧
  ∃ l, calls w' = calls w ++ l ∧
       ∀ inputs, CallTransform inputs ∈ l →
         ∃ x, x ∈ items_of triples ∧ inputs = [x] ∧
              fs w !! entry_path (self w) cp x = None.
Proof.
  revert acc w. induction triples as [|[[i x] e] rest IH]; intros acc w Hcp Hrun.
  - injection Hrun as _ <-. split; [by left|].
    exists []. rewrite app_nil_r. split; [done|]. by intros ? ?%elem_of_nil.
  - cbn [items_of map fst snd].
    destruct (loop_cons_outcomes i x e rest acc w cp Hcp)
      as [(data & cached & Hp & Hload & Heq)
         |[(data & Hp & Hdump & Heq)|(err & w1 & Heq & Hleft)]];
      rewrite Heq in Hrun.
    + destruct (IH _ _ Hcp Hrun) as (Hfs & l & Hcalls & Hl). split.
      * intros q. destruct (Hfs q) as [?|(y & d & Hy & ?)]; [by left|].
        right. exists y, d. split; [by apply list_elem_of_further|done].
      * exists l. split; [done|]. intros inputs Hin.
        destruct (Hl _ Hin) as (y & Hy & ?). exists y.
        split; [by apply list_elem_of_further|done].
    + destruct (IH _ (stored cp x data w) Hcp Hrun) as (Hfs & l & Hcalls & Hl).
      cbn [self stored] in Hfs, Hl. split.
      * intros q. destruct (decide (q = entry_path (self w) cp x)) as [->|Hne].
        { right. exists x, data. split; [by apply list_elem_of_here|].
          split; [done|]. split; [done|].
          destruct (Hfs (entry_path (self w) cp x)) as [->|(y & d & _ & _ & Hnone & _)].
          - simpl. by rewrite lookup_insert_eq.
          - simpl in Hnone. by rewrite lookup_insert_eq in Hnone. }
        destruct (Hfs q) as [Hq|(y & d & Hy & Hqy & Hnone & Hq)].
        { left. rewrite Hq. simpl. by rewrite lookup_insert_ne. }
        right. exists y, d. split; [by apply list_elem_of_further|].
        split; [done|]. split; [|done].
        simpl in Hnone. by rewrite lookup_insert_ne in Hnone.
      * exists ([CallTransform [x]; CallOpenWb (entry_path (self w) cp x)] ++ l).
        split; [by rewrite Hcalls; simpl; rewrite <- app_assoc|].
        intros inputs Hin. apply elem_of_app in Hin as [Hin|Hin].
        { apply elem_of_cons in Hin as [[= ->]|Hin].
          - exists x. split; [by apply list_elem_of_here|done].
          - apply elem_of_cons in Hin as [[=]|Hin]. by apply elem_of_nil in Hin. }
        destruct (Hl _ Hin) as (y & Hy & -> & Hnone). exists y.
        split; [by apply list_elem_of_further|]. split; [done|].
        simpl in Hnone. apply lookup_insert_None in Hnone. tauto.
    + injection Hrun as _ <-.
      destruct Hleft as [->|(Hp & [->|(data & ->)])].
      * split; [by left|]. exists []. rewrite app_nil_r. split; [done|].
        by intros ? ?%elem_of_nil.
      * split; [by left|]. exists [CallTransform [x]]. split; [done|].
        intros inputs Hin. apply elem_of_cons in Hin as [[= ->]|Hin].
        -- exists x. split; [by apply list_elem_of_here|done].
        -- by apply elem_of_nil in Hin.
      * split.
        -- intros q. destruct (decide (q = entry_path (self w) cp x)) as [->|Hne].
           ++ right. exists x, data. split; [by apply list_elem_of_here|].
              split; [done|]. split; [done|]. simpl. by rewrite lookup_insert_eq.
           ++ left. simpl. by rewrite lookup_insert_ne.
        -- exists [CallTransform [x]; CallOpenWb (entry_path (self w) cp x)].
           split; [by simpl; rewrite <- app_assoc|].
           intros inputs Hin. apply elem_of_cons in Hin as [[= ->]|Hin].
           ++ exists x. split; [by apply list_elem_of_here|done].
           ++ apply elem_of_cons in Hin as [[=]|Hin]. by apply elem_of_nil in Hin.
Qed.

(** After a run that succeeded every item of the batch has an entry. *)
Lemma loop_all_cached cp triples acc w outputs w' :
  checkpoint_path (self w) = Some cp →
  loop triples acc w = (inr outputs, w') →
  ∀ x, x ∈ items_of triples →
    ∃ data, fs w' !! entry_path (self w) cp x = Some (File data).
Proof.
  revert acc w. induction triples as [|[[i x] e] rest IH]; intros acc w Hcp Hrun y Hy.
  - by apply elem_of_nil in Hy.
  - cbn [items_of map fst snd] in Hy.
    destruct (loop_cons_cases i x e rest acc w cp Hcp)
      as [(data & cached & Hp & Hload & Heq)|[(data & Hp & Hdump & Heq)|(err & w1 & Heq & _)]];
      rewrite Heq in Hrun; [| |done].
    + apply elem_of_cons in Hy as [->|Hy]; [|by eapply IH].
      destruct (loop_framed cp _ _ _ _ _ Hcp Hrun) as (_ & Hsub & _).
      exists data. by eapply lookup_weaken.
    + apply elem_of_cons in Hy as [->|Hy]; [|by eapply (IH _ (stored cp x data w))].
      destruct (loop_framed cp _ _ (stored cp x data w) _ _ Hcp Hrun) as (_ & Hsub & _).
      exists data. eapply lookup_weaken; [|done]. simpl. by rewrite lookup_insert_eq.
Qed.

(** With a coherent cache and no collision the loop returns what the
    wrapped step computes, item by item, and keeps the cache coherent. *)
Lemma loop_transparent cp all triples acc w outputs w' :
  pickle_round_trip →
  checkpoint_path (self w) = Some cp →
  hash_injective_on (self w) all →
  (∀ x, x ∈ items_of triples → x ∈ all) →
  coherent cp all w →
  loop triples acc w = (inr outputs, w') →
  outputs = acc ++ concat (map (λ x, transform (wrapped (self w)) [x]) (items_of triples)) ∧
  coherent cp all w'.
Proof.
  intros Hrt. revert acc w.
  induction triples as [|[[i x] e] rest IH]; intros acc w Hcp Hinj Hall Hco Hrun.
  - injection Hrun as <- <-. by rewrite app_nil_r.
  - cbn [items_of map fst snd concat] in *.
    assert (Hx : x ∈ all) by (apply Hall, list_elem_of_here).
    assert (Hrest : ∀ y, y ∈ items_of rest → y ∈ all)
      by (intros y Hy; by apply Hall, list_elem_of_further).
    destruct (loop_cons_cases i x e rest acc w cp Hcp)
      as [(data & cached & Hp & Hload & Heq)|[(data & Hp & Hdump & Heq)|(err & w1 & Heq & _)]];
      rewrite Heq in Hrun; [| |done].
    + destruct (Hco x _ Hx Hp) as (data1 & [= <-] & Hload1).
      assert (cached = transform (wrapped (self w)) [x]) as -> by congruence.
      destruct (IH _ _ Hcp Hinj Hrest Hco Hrun) as [-> Hco']. by rewrite <- app_assoc.
    + assert (Hco1 : coherent cp all (stored cp x data w)).
      { intros y n Hy. cbn [self stored fs].
        destruct (decide (entry_path (self w) cp y = entry_path (self w) cp x)) as [Heq1|Hne].
        - rewrite Heq1, lookup_insert_eq. intros [= <-]. exists data. split; [done|].
          apply entry_path_inj in Heq1. rewrite (Hinj y x Hy Hx Heq1). by apply Hrt.
        - rewrite lookup_insert_ne by done. by apply Hco. }
      destruct (IH _ (stored cp x data w) Hcp Hinj Hrest Hco1 Hrun) as [-> Hco'].
      cbn [self stored]. by rewrite <- app_assoc.
Qed.


(** Without a checkpoint path the loop leaves the world as it is. *)
Lemma loop_unset triples acc w :
  checkpoint_path (self w) = None → (loop triples acc w).2 = w.
Proof.
  intros Hcp. destruct triples as [|t rest]; [done|].
  by rewrite loop_no_checkpoint_path.
Qed.

Lemma handle_transform_run dc w r w' :
  handle_transform dc w = (r, w') → ∃ r0, loop (dc_iter dc) [] w = (r0, w').
Proof.
  rewrite handle_transform_eq.
  destruct (loop (dc_iter dc) [] w) as [[err|outputs] w1]; intros [= _ <-]; by eexists.
Qed.


(** X9.  [handle_transform] only adds entries.  Whether it returns or
    raises, it does not change the wrapper, every file that was there is
    still there with the same content, and what is new are entries of
    items of the batch that had none: nothing is deleted or
    overwritten. *)
Theorem handle_transform_only_adds dc w r w' :
  handle_transform dc w = (r, w') →
  self w' = self w ∧
  fs w ⊆ fs w' ∧
  ∀ cp, checkpoint_path (self w) = Some cp →
    ∀ q, fs w' !! q = fs w !! q
         ∨ ∃ x data, x ∈ items_of (dc_iter dc) ∧ q = entry_path (self w) cp x ∧
                     fs w !! q = None ∧ fs w' !! q = Some (File data).
Proof.
  intros (r0 & Hrun)%handle_transform_run.
  destruct (checkpoint_path (self w)) as [cp|] eqn:Hcp.
  - destruct (loop_framed cp _ _ _ _ _ Hcp Hrun) as (Hself & Hsub & _).
    split; [done|]. split; [done|]. intros cp' [= <-].
    by destruct (loop_touched cp _ _ _ _ _ Hcp Hrun).
  - pose proof (loop_unset (dc_iter dc) [] w Hcp) as Hw. rewrite Hrun in Hw.
    simpl in Hw. by subst w'.
Qed.

(** X10.  The wrapped step is given one item at a time.  Whether
    [handle_transform] returns or raises, the calls it makes are calls to
    [transform] and to [open] for writing, and each call to [transform] is
    on a list of one item of the batch for which [contains_cache_for] was
    false when the handler was called: the wrapper is never fitted and the
    cache never flushed. *)
Theorem transform_gets_single_misses cp dc w r w' :
  checkpoint_path (self w) = Some cp →
  handle_transform dc w = (r, w') →
  ∃ l, calls w' = calls w ++ l ∧
       Forall (λ c, match c with
                    | CallTransform _ | CallOpenWb _ => True
                    | _ => False
                    end) l ∧
       ∀ inputs, CallTransform inputs ∈ l →
         ∃ x, x ∈ items_of (dc_iter dc) ∧ inputs = [x] ∧
              contains_cache_for x w = (inr false, w).
Proof.
  intros Hcp (r0 & Hrun)%handle_transform_run.
  destruct (loop_framed cp _ _ _ _ _ Hcp Hrun) as (_ & _ & l & Hcalls & Hl & _).
  destruct (loop_touched cp _ _ _ _ _ Hcp Hrun) as (_ & l' & Hcalls' & Hl').
  rewrite Hcalls in Hcalls'. apply app_inv_head in Hcalls' as <-.
  exists l. split; [done|]. split; [done|]. intros inputs Hin.
  destruct (Hl' _ Hin) as (x & Hx & -> & Hnone). exists x.
  split; [done|]. split; [done|]. by rewrite contains_cache_for_eq, Hcp, Hnone.
Qed.

(** X11.  Caching is transparent where hashes do not collide.  When no two
    different items of the batch have the same hash and every entry an
    item of the batch has holds what the wrapped step returns for it, the
    data inputs of the container [handle_transform] returns are what
    [transform] of the wrapped step returns, item by item, in the order of
    the batch; the expected outputs are passed through, the identifiers
    are the hash of the old ones with the hyperparameters and all the
    outputs, and the cache holds for every item of the batch what the
    wrapped step returns for it.
    The hasher is taken to give hashes that are file names, of one path
    component each. *)
Theorem transform_is_transparent cp dc w dc' w' :
  hashes_are_file_names (self w) →
  pickle_round_trip →
  checkpoint_path (self w) = Some cp →
  hash_injective_on (self w) (items_of (dc_iter dc)) →
  coherent cp (items_of (dc_iter dc)) w →
  handle_transform dc w = (inr dc', w') →
  data_inputs dc' =
    concat (map (λ x, transform (wrapped (self w)) [x]) (items_of (dc_iter dc))) ∧
  expected_outputs dc' = expected_outputs dc ∧
  current_ids dc' = step_hash (current_ids dc) (hyperparams_ (self w)) (data_inputs dc') ∧
  coherent cp (items_of (dc_iter dc)) w'.
Proof.
  intros _.
  intros Hrt Hcp Hinj Hco. rewrite handle_transform_eq.
  destruct (loop (dc_iter dc) [] w) as [[err|outputs] w1] eqn:Hrun; [done|].
  intros [= <- <-]. cbn [data_inputs expected_outputs current_ids].
  destruct (loop_framed cp _ _ _ _ _ Hcp Hrun) as (Hself & _).
  destruct (loop_transparent cp _ _ _ _ _ _ Hrt Hcp Hinj (λ x Hx, Hx) Hco Hrun)
    as [-> Hco'].
  by rewrite Hself.
Qed.

(** X12.  [handle_fit_transform] returns what the fitted step computes.
    When it returns, the wrapped step has been replaced by the step fitted
    on the data inputs and the expected outputs of the container, the
    other attributes are as before, and, when no two different items of
    the batch have the same hash, the data inputs of the container
    returned are what [transform] of the fitted step returns, item by
    item, in the order of the batch, whatever the cache held before.
    The hasher is taken to give hashes that are file names, of one path
    component each. *)
Theorem fit_transform_is_transparent cp dc w dc' w' :
  hashes_are_file_names (self w) →
  pickle_round_trip →
  checkpoint_path (self w) = Some cp →
  handle_fit_transform dc w = (inr dc', w') →
  wrapped (self w') = fit (wrapped (self w)) (data_inputs dc) (expected_outputs dc) ∧
  value_hasher (self w') = value_hasher (self w) ∧
  cache_folder (self w') = cache_folder (self w) ∧
  hyperparams_ (self w') = hyperparams_ (self w) ∧
  checkpoint_path (self w') = checkpoint_path (self w) ∧
  (hash_injective_on (self w) (items_of (dc_iter dc)) →
   data_inputs dc' =
     concat (map (λ x, transform (wrapped (self w')) [x]) (items_of (dc_iter dc)))).
Proof.
  intros _.
  intros Hrt Hcp. rewrite handle_fit_transform_eq.
  destruct (flush_cache w) as [[err|[]] w1] eqn:Hflush; [done|].
  apply flush_cache_inv in Hflush as (cp' & Hcp' & ->).
  assert (cp' = cp) as -> by congruence.
  set (w2 := (wrapped_fit (data_inputs dc) (expected_outputs dc) (flushed cp w)).2).
  assert (Hcp2 : checkpoint_path (self w2) = Some cp) by done.
  rewrite handle_transform_eq.
  destruct (loop (dc_iter dc) [] w2) as [[err|outputs] w3] eqn:Hrun; [done|].
  intros [= <- <-]. cbn [data_inputs].
  destruct (loop_framed cp _ _ _ _ _ Hcp2 Hrun) as (Hself & _).
  rewrite Hself. repeat (split; [done|]).
  intros Hinj.
  assert (Hco : coherent cp (items_of (dc_iter dc)) w2).
  { intros x n _ Hn. exfalso.
    change (fs (flushed cp w) !! entry_path (self w) cp x = Some n) in Hn.
    rewrite lookup_flushed_below in Hn;
      [done|apply entry_path_prefix|apply entry_path_ne]. }
  by destruct (loop_transparent cp _ _ _ _ _ _ Hrt Hcp2 Hinj (λ x Hx, Hx) Hco Hrun)
    as [-> _].
Qed.



(** X15.  After a [handle_transform] that has returned, every item of the
    batch is cached: [contains_cache_for] is true for it. *)
Theorem transform_caches_every_item cp dc w dc' w' :
  checkpoint_path (self w) = Some cp →
  handle_transform dc w = (inr dc', w') →
  ∀ x, x ∈ items_of (dc_iter dc) → contains_cache_for x w' = (inr true, w').
Proof.
  intros Hcp. rewrite handle_transform_eq.
  destruct (loop (dc_iter dc) [] w) as [[err|outputs] w1] eqn:Hrun; [done|].
  intros [= _ <-] x Hx.
  destruct (loop_framed cp _ _ _ _ _ Hcp Hrun) as (Hself & _).
  destruct (loop_all_cached cp _ _ _ _ _ Hcp Hrun x Hx) as (data & Hdata).
  rewrite contains_cache_for_eq, Hself, Hcp, Hdata.
  by rewrite bool_decide_eq_true_2 by eauto.
Qed.

(** X16.  After a [handle_fit_transform] that has returned, the cache
    holds the batch and nothing else: [contains_cache_for] is true for an
    item exactly when an item of the batch has its hash.
    The hasher is taken to give hashes that are file names, of one path
    component each. *)
Theorem fit_transform_cache_is_the_batch cp dc w dc' w' :
  hashes_are_file_names (self w) →
  checkpoint_path (self w) = Some cp →
  handle_fit_transform dc w = (inr dc', w') →
  ∀ y, contains_cache_for y w'
       = (inr (bool_decide (value_hasher (self w) y
                              ∈ map (value_hasher (self w)) (items_of (dc_iter dc)))), w').
Proof.
  intros _.
  intros Hcp. rewrite handle_fit_transform_eq.
  destruct (flush_cache w) as [[err|[]] w1] eqn:Hflush; [done|].
  apply flush_cache_inv in Hflush as (cp' & Hcp' & ->).
  assert (cp' = cp) as -> by congruence.
  set (w2 := (wrapped_fit (data_inputs dc) (expected_outputs dc) (flushed cp w)).2).
  assert (Hcp2 : checkpoint_path (self w2) = Some cp) by done.
  rewrite handle_transform_eq.
  destruct (loop (dc_iter dc) [] w2) as [[err|outputs] w3] eqn:Hrun; [done|].
  intros [= _ <-] y.
  destruct (loop_framed cp _ _ _ _ _ Hcp2 Hrun) as (Hself & _).
  destruct (loop_touched cp _ _ _ _ _ Hcp2 Hrun) as (Htouched & _).
  pose proof (loop_all_cached cp _ _ _ _ _ Hcp2 Hrun) as Hcached.
  rewrite contains_cache_for_eq, Hself, Hcp2. f_equal. f_equal.
  change (entry_path (self w2) cp y) with (entry_path (self w) cp y).
  apply bool_decide_ext. rewrite list_elem_of_fmap. split.
  - intros [n Hn].
    destruct (Htouched (entry_path (self w) cp y)) as [Hsame|(x & data & Hx & Hpath & _)].
    + rewrite Hn in Hsame. symmetry in Hsame.
      change (fs (flushed cp w) !! entry_path (self w) cp y = Some n) in Hsame.
      rewrite lookup_flushed_below in Hsame;
        [done|apply entry_path_prefix|apply entry_path_ne].
    + exists x. split; [|done].
      change (entry_path (self w2) cp x) with (entry_path (self w) cp x) in Hpath.
      by apply entry_path_inj in Hpath.
  - intros (x & Hhash & Hx). destruct (Hcached x Hx) as (data & Hdata).
    change (entry_path (self w2) cp x) with (entry_path (self w) cp x) in Hdata.
    assert (Hpath : entry_path (self w) cp y = entry_path (self w) cp x)
      by (by apply entry_path_inj).
    rewrite Hpath. eauto.
Qed.

(** X17.  Before [setup], [handle_transform] returns normally on an empty
    batch, with no output and without touching anything, and raises
    [AttributeError] on any other batch before the wrapped step is
    called; [handle_fit_transform] raises [AttributeError] on every batch,
    before the wrapped step is fitted. *)
Theorem handlers_before_setup dc w :
  checkpoint_path (self w) = None →
  handle_transform dc w =
    match dc_iter dc with
    | [] => (inr {| current_ids := step_hash (current_ids dc) (hyperparams_ (self w)) [];
                    data_inputs := [];
                    expected_outputs := expected_outputs dc |}, w)
    | _ :: _ => (inl AttributeError, w)
    end ∧
  handle_fit_transform dc w = (inl AttributeError, w).
Proof.
  intros Hcp. split.
  - rewrite handle_transform_eq. destruct (dc_iter dc) as [|t rest]; [done|].
    by rewrite loop_no_checkpoint_path.
  - rewrite handle_fit_transform_eq. unfold flush_cache. rewrite bind_run.
    unfold self_checkpoint_path at 1. by rewrite Hcp.
Qed.

End Properties.

(** ** The concrete pipeline, run *)

Section Runs.

Import Demo.

Lemma demo_round_trip : pickle_round_trip.
Proof.
  unfold pickle_round_trip. simpl.
  induction output as [|z rest IH]; intros data Hdump; simpl in Hdump.
  - by injection Hdump as <-.
  - destruct (decide (0 ≤ z)%Z) as [Hz|Hz]; [|done].
    destruct (Byte.of_N (Z.to_N z)) as [b|] eqn:Hb; [|done].
    destruct (dump_bytes rest) as [data1|]; [|done].
    injection Hdump as <-.
    change (load_bytes ("I"%byte :: b :: data1))
      with (match load_bytes data1 with
            | Some output => Some (Z.of_N (Byte.to_N b) :: output)
            | None => None
            end).
    apply Byte.to_of_N in Hb. rewrite (IH data1 eq_refl), Hb, Z2N.id by done. done.
Qed.

(** The hashes of the pipeline are letters: file names. *)
Lemma demo_file_names (o : ValueCachingWrapper) :
  value_hasher o = hash_letter → hashes_are_file_names o.
Proof.
  intros Ho x. rewrite Ho. unfold hash_letter, path_component.
  change (String ?c "" +:+ ".pickle") with (String c ".pickle").
  split; [|by repeat split]. cbn [has_separator].
  destruct (Ascii.eqb _ _) eqn:Heq; [|reflexivity].
  apply Ascii.eqb_eq, (f_equal Ascii.N_of_ascii) in Heq.
  assert (Hlt : (Z.to_N (x mod 16) < 16)%N)
    by (pose proof (Z.mod_pos_bound x 16); lia).
  rewrite !Ascii.N_ascii_embedding in Heq by lia. lia.
Qed.

Local Ltac file_names := apply demo_file_names; vm_compute; reflexivity.

Local Ltac each_item H :=
  repeat (apply elem_of_cons in H as [->|H]); try (apply elem_of_nil in H; destruct H).

(** Scenarios A, B and C of the specification. *)
Example scenario_A :
  (handle_transform (batch [1; 2; 3]%Z) ready).1
    = inr {| current_ids := [1; 2; 3];
             data_inputs := [2; 4; 6]%Z;
             expected_outputs := [0; 0; 0]%Z |}
  ∧ transform_calls (drop (length (calls ready)) (calls warm)) = [[1]; [2]; [3]]%Z.
Proof. split; vm_compute; reflexivity. Qed.

Example scenario_B :
  (handle_transform (batch [1; 2; 3]%Z) warm).1
    = inr {| current_ids := [1; 2; 3];
             data_inputs := [2; 4; 6]%Z;
             expected_outputs := [0; 0; 0]%Z |}
  ∧ drop (length (calls warm)) (calls (handle_transform (batch [1; 2; 3]%Z) warm).2) = [].
Proof. split; vm_compute; reflexivity. Qed.

Example scenario_C :
  transform_calls
    (drop (length (calls warm)) (calls (handle_fit_transform (batch [1; 2; 3]%Z) warm).2))
  = [[1]; [2]; [3]]%Z.
Proof. vm_compute; reflexivity. Qed.

Lemma demo_warm_wf : fs_wf (fs warm).
Proof. apply (bool_decide_unpack _). vm_compute. exact I. Qed.

(** *** C9 *)

Lemma cache_operations_need_setup_witness :
  checkpoint_path (self fresh) = None ∧
  flush_cache fresh = (inl AttributeError, fresh) ∧
  contains_cache_for 1%Z fresh = (inl AttributeError, fresh) ∧
  checkpoint_path (self (setup ["pipeline"; "step"] fresh).2) = Some demo_cp.
Proof.
  pose proof (cache_operations_need_setup fresh eq_refl) as (Hflush & Hitem & Hsetup).
  split; [reflexivity|]. split; [exact Hflush|].
  split; [exact (proj1 (proj2 (Hitem 1%Z)))|]. exact (Hsetup ["pipeline"; "step"]).
Defined.

(** *** C2 *)

Lemma write_then_read_witness :
  write_cache 5%Z [10%Z] ready = (inr (), (write_cache 5%Z [10%Z] ready).2) ∧
  contains_cache_for 5%Z (write_cache 5%Z [10%Z] ready).2
    = (inr true, (write_cache 5%Z [10%Z] ready).2) ∧
  read_cache 5%Z (write_cache 5%Z [10%Z] ready).2
    = (inr [10%Z], (write_cache 5%Z [10%Z] ready).2).
Proof.
  assert (Hw : write_cache 5%Z [10%Z] ready = (inr (), (write_cache 5%Z [10%Z] ready).2))
    by (apply run_eq; vm_compute; reflexivity).
  split; [exact Hw|]. exact (write_then_read _ _ _ _ demo_round_trip Hw).
Defined.

(** *** C3 *)

Lemma transform_twice_witness :
  handle_transform (batch [1; 2; 3]%Z) ready
    = (inr {| current_ids := [1; 2; 3];
              data_inputs := [2; 4; 6]%Z;
              expected_outputs := [0; 0; 0]%Z |}, warm) ∧
  handle_transform (batch [1; 2; 3]%Z) warm
    = (inr {| current_ids := [1; 2; 3];
              data_inputs := [2; 4; 6]%Z;
              expected_outputs := [0; 0; 0]%Z |}, warm) ∧
  transform_calls (calls (handle_transform (batch [1; 2; 3]%Z) warm).2)
    = transform_calls (calls warm) ∧
  ∀ x, x ∈ items_of (dc_iter (batch [1; 2; 3]%Z)) →
    contains_cache_for x warm = (inr true, warm) ∧
    ∃ cached, read_cache x warm = (inr cached, warm).
Proof.
  assert (Hrun : handle_transform (batch [1; 2; 3]%Z) ready
                 = (inr {| current_ids := [1; 2; 3];
                           data_inputs := [2; 4; 6]%Z;
                           expected_outputs := [0; 0; 0]%Z |}, warm))
    by (unfold warm; apply run_eq; vm_compute; reflexivity).
  split; [exact Hrun|]. exact (transform_twice _ _ _ _ demo_round_trip Hrun).
Defined.

(** *** C4: the items [1] and [2] are cached, [5] and [7] are not *)

Lemma outputs_in_input_order_witness :
  _transform_with_cache (batch [1; 5; 2; 7]%Z) warm
    = (inr [2; 10; 4; 14]%Z, (_transform_with_cache (batch [1; 5; 2; 7]%Z) warm).2) ∧
  length [2; 10; 4; 14]%Z = length (dc_iter (batch [1; 5; 2; 7]%Z)) ∧
  ∀ k x, items_of (dc_iter (batch [1; 5; 2; 7]%Z)) !! k = Some x →
    ∃ y, [2; 10; 4; 14]%Z !! k = Some y ∧
         yields warm (items_of (dc_iter (batch [1; 5; 2; 7]%Z))) x [y].
Proof.
  assert (Hrun : _transform_with_cache (batch [1; 5; 2; 7]%Z) warm
                 = (inr [2; 10; 4; 14]%Z,
                    (_transform_with_cache (batch [1; 5; 2; 7]%Z) warm).2))
    by (apply run_eq; vm_compute; reflexivity).
  split; [exact Hrun|].
  destruct (outputs_in_input_order (batch [1; 5; 2; 7]%Z) warm _ _
              ltac:(file_names) demo_round_trip Hrun)
    as (chunks & _ & _ & _ & Hone).
  apply Hone.
  - intros x _. reflexivity.
  - intros x cached Hx Hread. change (x ∈ [1; 5; 2; 7]%Z) in Hx.
    apply (f_equal fst) in Hread. cbn [fst] in Hread.
    each_item Hx; vm_compute in Hread; try discriminate Hread;
      injection Hread as <-; reflexivity.
Defined.

(** *** C5 *)

Lemma flush_of_missing_directory_fails :
  checkpoint_path (self lost) = Some demo_cp ∧
  lookup_node (fs lost) demo_cp = None ∧
  flush_cache lost = (inl FileNotFoundError, lost).
Proof.
  split; [vm_compute; reflexivity|]. split; [vm_compute; reflexivity|].
  replace FileNotFoundError with (absent_error (fs lost) demo_cp)
    by (vm_compute; reflexivity).
  apply (flush_cache_missing demo_cp); vm_compute; reflexivity.
Qed.

Lemma flush_needs_the_directory_witness :
  (∃ w', flush_cache warm = (inr (), w') ∧
         fs w' !! demo_cp = Some Dir ∧
         (∀ q, demo_cp `prefix_of` q → q ≠ demo_cp → fs w' !! q = None) ∧
         (∀ q, ¬ demo_cp `prefix_of` q → fs w' !! q = fs warm !! q)) ∧
  flush_cache lost = (inl FileNotFoundError, lost) ∧
  flush_cache shadowed = (inl NotADirectoryError, shadowed).
Proof.
  split; [|split].
  - apply (proj1 (flush_needs_the_directory demo_cp warm ltac:(vm_compute; reflexivity))).
    + vm_compute; reflexivity.
    + apply (bool_decide_unpack _). vm_compute. exact I.
  - destruct (proj2 (flush_needs_the_directory demo_cp lost ltac:(vm_compute; reflexivity))
                ltac:(vm_compute; reflexivity)) as (err & Hrun & _ & Hmissing).
    rewrite Hrun, Hmissing; [reflexivity|].
    intros q content _. change (fs lost) with (∅ : filesystem).
    rewrite lookup_empty. discriminate.
  - destruct (proj2 (flush_needs_the_directory demo_cp shadowed
                       ltac:(vm_compute; reflexivity))
                ltac:(vm_compute; reflexivity)) as (err & Hrun & _ & _).
    assert (Herr : (flush_cache shadowed).1 = inl NotADirectoryError)
      by (vm_compute; reflexivity).
    rewrite Hrun in Herr |- *. cbn [fst] in Herr. injection Herr as ->. reflexivity.
Defined.

(** *** C6 *)

Lemma flush_is_complete_witness :
  (contains_cache_for 1%Z warm).1 = inr true ∧
  ∀ x, contains_cache_for x (flush_cache warm).2 = (inr false, (flush_cache warm).2).
Proof.
  split; [vm_compute; reflexivity|].
  apply (proj1 (flush_is_complete warm ltac:(file_names))).
  apply run_eq. vm_compute; reflexivity.
Defined.

(** *** C7: the item [200] fails first, in [pickle.dump] *)

Lemma malformed_entry_behind_a_failing_item :
  (contains_cache_for 2%Z truncated).1 = inr true ∧
  (read_cache 2%Z truncated).1 = inl UnpicklingError ∧
  (contains_cache_for 200%Z truncated).1 = inr false ∧
  (handle_transform (batch [200; 2]%Z) truncated).1 = inl PicklingError.
Proof. repeat split; vm_compute; reflexivity. Qed.

Lemma malformed_entry_fails_witness :
  read_cache 2%Z truncated = (inl UnpicklingError, truncated) ∧
  (handle_transform (batch [1; 2; 3]%Z) truncated).1 = inl UnpicklingError.
Proof.
  pose proof (malformed_entry_fails demo_cp 2%Z ["I"%byte] truncated
                ltac:(vm_compute; reflexivity) ltac:(vm_compute; reflexivity)
                ltac:(vm_compute; reflexivity)) as (_ & Hread & Hbatch).
  split; [exact Hread|].
  destruct (Hbatch (batch [1; 2; 3]%Z) [(0, 1%Z, 0%Z)] 1 0%Z [(2, 3%Z, 0%Z)] eq_refl)
    as (err & w' & Hrun & Herr & _).
  rewrite Hrun. cbn [fst]. rewrite Herr. vm_compute; reflexivity.
Defined.

(** *** C8 *)

Lemma failed_write_leaves_unreadable_entry :
  (contains_cache_for 5%Z ready).1 = inr false ∧
  write_cache 5%Z [1; 300]%Z ready = (inl PicklingError, half_written) ∧
  (contains_cache_for 5%Z half_written).1 = inr true ∧
  (read_cache 5%Z half_written).1 = inl UnpicklingError.
Proof.
  split; [vm_compute; reflexivity|].
  split; [unfold half_written; apply run_eq; vm_compute; reflexivity|].
  split; vm_compute; reflexivity.
Qed.

Lemma failed_write_outcome_witness :
  write_cache 5%Z [1; 300]%Z ready = (inl PicklingError, half_written) ∧
  ((half_written = ready ∧ PicklingError ≠ PicklingError)
   ∨ (∃ cp written,
         checkpoint_path (self ready) = Some cp ∧
         pickle_dump [1; 300]%Z = DumpFailed written ∧
         PicklingError = PicklingError ∧
         half_written = file_written (entry_path (self ready) cp 5%Z) written ready ∧
         contains_cache_for 5%Z half_written = (inr true, half_written) ∧
         (pickle_load written = None →
          read_cache 5%Z half_written = (inl UnpicklingError, half_written)))).
Proof.
  assert (Hw : write_cache 5%Z [1; 300]%Z ready = (inl PicklingError, half_written))
    by (unfold half_written; apply run_eq; vm_compute; reflexivity).
  split; [exact Hw|]. exact (failed_write_outcome _ _ _ _ _ Hw).
Defined.

(** *** C10: [1] and [17] have the same hash *)

Lemma colliding_items_share_the_entry_witness :
  value_hasher (self warm) 1%Z = value_hasher (self warm) 17%Z ∧
  read_cache 1%Z warm = (inr [2%Z], warm) ∧
  ∃ before after w1 w2,
    _transform_with_cache_loop [(0, 5%Z, 0%Z)] [] warm = (inr before, w1) ∧
    _transform_with_cache_loop [(1, 17%Z, 0%Z)] [] w1 = (inr [2%Z], w1) ∧
    _transform_with_cache_loop [] [] w1 = (inr after, w2) ∧
    [10; 2]%Z = before ++ [2%Z] ++ after ∧
    ∀ l, calls (handle_transform (batch [5; 17]%Z) warm).2 = calls warm ++ l →
         (CallTransform [17%Z] ∉ l) ∧ (CallTransform [1%Z] ∉ l).
Proof.
  assert (Hread : read_cache 1%Z warm = (inr [2%Z], warm)).
  { rewrite read_cache_eq.
    replace (checkpoint_path (self warm)) with (Some demo_cp) by (vm_compute; reflexivity).
    replace (fs warm !! entry_path (self warm) demo_cp 1%Z)
      with (Some (File ["I"; "002"; "."]%byte)) by (vm_compute; reflexivity).
    reflexivity. }
  split; [vm_compute; reflexivity|]. split; [exact Hread|].
  exact (colliding_items_share_the_entry demo_cp 1%Z 17%Z [2%Z] warm
           ltac:(vm_compute; reflexivity) ltac:(vm_compute; reflexivity) Hread
           (batch [5; 17]%Z) [(0, 5%Z, 0%Z)] 1 0%Z []
           {| current_ids := [1; 2];
              data_inputs := [10; 2]%Z;
              expected_outputs := [0; 0]%Z |}
           (handle_transform (batch [5; 17]%Z) warm).2 eq_refl
           ltac:(apply run_eq; vm_compute; reflexivity)).
Defined.

(** *** C1: the batch [1, 1] *)

Lemma repeated_item_hits_after_flush :
  items_of (dc_iter (batch [1; 1]%Z)) = [1; 1]%Z ∧
  (handle_fit_transform (batch [1; 1]%Z) warm).1
    = inr {| current_ids := [1; 2];
             data_inputs := [2; 2]%Z;
             expected_outputs := [0; 0]%Z |} ∧
  transform_calls
    (drop (length (calls warm)) (calls (handle_fit_transform (batch [1; 1]%Z) warm).2))
  = [[1%Z]].
Proof. repeat split; vm_compute; reflexivity. Qed.

Lemma fit_flushes_first_witness :
  calls (flushed demo_cp warm) = calls warm ++ [CallRmtree demo_cp; CallMkdir demo_cp] ∧
  (∀ x, contains_cache_for x (flushed demo_cp warm) = (inr false, flushed demo_cp warm)) ∧
  ∃ l, calls (handle_fit_transform (batch [1; 1; 17; 2]%Z) warm).2 =
         calls (flushed demo_cp warm) ++
           CallFit (data_inputs (batch [1; 1; 17; 2]%Z))
                   (expected_outputs (batch [1; 1; 17; 2]%Z)) :: l ∧
       Forall (λ c, match c with
                    | CallTransform _ | CallOpenWb _ => True
                    | _ => False
                    end) l ∧
       ∀ dc', (handle_fit_transform (batch [1; 1; 17; 2]%Z) warm).1 = inr dc' →
         transform_calls l =
           map (λ x, [x])
             (first_by_hash (value_hasher (self warm)) []
                (items_of (dc_iter (batch [1; 1; 17; 2]%Z)))).
Proof.
  pose proof (fit_flushes_first demo_cp (batch [1; 1; 17; 2]%Z) warm
                ltac:(file_names) ltac:(vm_compute; reflexivity)) as Hthm.
  assert (Hflush : flush_cache warm = (inr (), flushed demo_cp warm)).
  { apply flush_cache_ok; [vm_compute; reflexivity..|].
    apply (bool_decide_unpack _). vm_compute. exact I. }
  rewrite Hflush in Hthm. exact Hthm.
Defined.

(** *** Beyond the claims *)

Lemma setup_makes_the_directory_witness :
  ∃ w', setup ["pipeline"; "step"] fresh = (inr (), w') ∧
        checkpoint_path (self w') = Some (checkpoint_of (self fresh) ["pipeline"; "step"]) ∧
        fs w' !! checkpoint_of (self fresh) ["pipeline"; "step"] = Some Dir ∧
        fs_wf (fs w') ∧
        ∀ q, fs w' !! q = fs fresh !! q
             ∨ (q `prefix_of` checkpoint_of (self fresh) ["pipeline"; "step"] ∧
                fs fresh !! q = None ∧ fs w' !! q = Some Dir).
Proof.
  apply setup_makes_the_directory.
  - apply (bool_decide_unpack _). vm_compute. exact I.
  - intros q content _. unfold fresh. simpl. by rewrite lookup_empty.
Defined.

Lemma setup_twice_witness :
  setup ["pipeline"; "step"] fresh = (inr (), ready) ∧
  setup ["pipeline"; "step"] ready = (inr (), ready).
Proof.
  assert (Hrun : setup ["pipeline"; "step"] fresh = (inr (), ready))
    by (unfold ready; apply run_eq; vm_compute; reflexivity).
  split; [exact Hrun|]. exact (setup_twice _ _ _ Hrun).
Defined.

Lemma setup_on_a_regular_file_witness :
  setup ["pipeline"; "step"] blocked = (inr (), assigned ["pipeline"; "step"] blocked) ∧
  flush_cache (assigned ["pipeline"; "step"] blocked)
    = (inl NotADirectoryError, assigned ["pipeline"; "step"] blocked) ∧
  ∀ dc, handle_fit_transform dc (assigned ["pipeline"; "step"] blocked)
        = (inl NotADirectoryError, assigned ["pipeline"; "step"] blocked).
Proof.
  apply (setup_on_a_regular_file ["pipeline"; "step"] [] blocked).
  vm_compute; reflexivity.
Defined.

Lemma flush_after_setup_witness :
  ∃ w2, flush_cache ready = (inr (), w2) ∧
        ∀ x, contains_cache_for x w2 = (inr false, w2).
Proof.
  apply (flush_after_setup ["pipeline"; "step"] fresh ready).
  - file_names.
  - apply (bool_decide_unpack _). vm_compute. exact I.
  - intros content. vm_compute. discriminate.
  - unfold ready. apply run_eq. vm_compute; reflexivity.
Defined.

Lemma same_file_iff_same_hash_witness :
  (demo_cp ++ ["b.pickle"] = demo_cp ++ ["b.pickle"]
   ↔ value_hasher (self warm) 1%Z = value_hasher (self warm) 17%Z) ∧
  checkpoint_path (self warm) = Some (dirname (demo_cp ++ ["b.pickle"])) ∧
  (get_cache_path_for 1%Z warm).2 = warm.
Proof.
  apply (same_file_iff_same_hash (H := collaborators) 1%Z 17%Z warm
           (demo_cp ++ ["b.pickle"]) (demo_cp ++ ["b.pickle"])
           (get_cache_path_for (H := collaborators) 1%Z warm).2
           (get_cache_path_for (H := collaborators) 17%Z warm).2);
    [file_names|apply run_eq; vm_compute; reflexivity..].
Defined.


Lemma write_leaves_other_entries_witness :
  (contains_cache_for 1%Z (write_cache 5%Z [10%Z] warm).2).1
    = (contains_cache_for 1%Z warm).1 ∧
  (read_cache 1%Z (write_cache 5%Z [10%Z] warm).2).1 = (read_cache 1%Z warm).1.
Proof.
  apply (write_leaves_other_entries (H := collaborators) 5%Z [10%Z] 1%Z warm (inr ())).
  - file_names.
  - apply run_eq. vm_compute; reflexivity.
  - vm_compute. discriminate.
Defined.

Lemma flush_twice_witness :
  ∃ w2, flush_cache (flushed demo_cp warm) = (inr (), w2) ∧
        fs w2 = fs (flushed demo_cp warm).
Proof.
  apply (flush_twice warm). apply flush_cache_ok; [vm_compute; reflexivity..|].
  apply (bool_decide_unpack _). vm_compute. exact I.
Defined.

Lemma handle_transform_only_adds_witness :
  self (handle_transform (batch [1; 5]%Z) warm).2 = self warm ∧
  fs warm ⊆ fs (handle_transform (batch [1; 5]%Z) warm).2 ∧
  ∀ cp, checkpoint_path (self warm) = Some cp →
    ∀ q, fs (handle_transform (batch [1; 5]%Z) warm).2 !! q = fs warm !! q
         ∨ ∃ x data, x ∈ items_of (dc_iter (batch [1; 5]%Z)) ∧
                     q = entry_path (self warm) cp x ∧
                     fs warm !! q = None ∧
                     fs (handle_transform (batch [1; 5]%Z) warm).2 !! q = Some (File data).
Proof.
  apply (handle_transform_only_adds (batch [1; 5]%Z) warm
           (handle_transform (batch [1; 5]%Z) warm).1).
  apply surjective_pairing.
Defined.

Lemma transform_gets_single_misses_witness :
  ∃ l, calls (handle_transform (batch [1; 5]%Z) warm).2 = calls warm ++ l ∧
       Forall (λ c, match c with
                    | CallTransform _ | CallOpenWb _ => True
                    | _ => False
                    end) l ∧
       ∀ inputs, CallTransform inputs ∈ l →
         ∃ x, x ∈ items_of (dc_iter (batch [1; 5]%Z)) ∧ inputs = [x] ∧
              contains_cache_for x warm = (inr false, warm).
Proof.
  apply (transform_gets_single_misses demo_cp (batch [1; 5]%Z) warm
           (handle_transform (batch [1; 5]%Z) warm).1).
  - vm_compute; reflexivity.
  - apply surjective_pairing.
Defined.

Lemma demo_injective (o : ValueCachingWrapper) (l : list Z) :
  value_hasher o = hash_letter →
  (∀ x, x ∈ l → (0 ≤ x < 16)%Z) → hash_injective_on o l.
Proof.
  intros Ho Hl x y Hx Hy Hhash. apply Hl in Hx, Hy.
  rewrite Ho in Hhash. unfold hash_letter in Hhash.
  rewrite !Z.mod_small in Hhash by lia.
  injection Hhash as Hhash. apply (f_equal Ascii.N_of_ascii) in Hhash.
  rewrite !Ascii.N_ascii_embedding in Hhash by lia. lia.
Qed.

Lemma transform_is_transparent_witness :
  data_inputs {| current_ids := [1; 2; 3];
                 data_inputs := [2; 10; 4]%Z;
                 expected_outputs := [0; 0; 0]%Z |} =
    concat (map (λ x, transform (wrapped (self warm)) [x])
              (items_of (dc_iter (batch [1; 5; 2]%Z)))) ∧
  expected_outputs {| current_ids := [1; 2; 3];
                      data_inputs := [2; 10; 4]%Z;
                      expected_outputs := [0; 0; 0]%Z |}
    = expected_outputs (batch [1; 5; 2]%Z) ∧
  current_ids {| current_ids := [1; 2; 3];
                 data_inputs := [2; 10; 4]%Z;
                 expected_outputs := [0; 0; 0]%Z |}
    = step_hash (current_ids (batch [1; 5; 2]%Z)) (hyperparams_ (self warm))
        (data_inputs {| current_ids := [1; 2; 3];
                        data_inputs := [2; 10; 4]%Z;
                        expected_outputs := [0; 0; 0]%Z |}) ∧
  coherent demo_cp (items_of (dc_iter (batch [1; 5; 2]%Z)))
    (handle_transform (batch [1; 5; 2]%Z) warm).2.
Proof.
  apply (transform_is_transparent demo_cp (batch [1; 5; 2]%Z) warm).
  - file_names.
  - exact demo_round_trip.
  - vm_compute; reflexivity.
  - apply (demo_injective _ [1; 5; 2]%Z); [vm_compute; reflexivity|].
    intros x Hx. each_item Hx; lia.
  - intros x n Hx Hn. change (x ∈ [1; 5; 2]%Z) in Hx.
    each_item Hx; vm_compute in Hn; try discriminate Hn;
      injection Hn as <-; eexists; (split; [reflexivity|vm_compute; reflexivity]).
  - apply run_eq. vm_compute; reflexivity.
Defined.

Lemma fit_transform_is_transparent_witness :
  wrapped (self (handle_fit_transform (batch [1; 5; 2]%Z) truncated).2)
    = fit (wrapped (self truncated)) (data_inputs (batch [1; 5; 2]%Z))
        (expected_outputs (batch [1; 5; 2]%Z)) ∧
  data_inputs {| current_ids := [1; 2; 3];
                 data_inputs := [2; 10; 4]%Z;
                 expected_outputs := [0; 0; 0]%Z |} =
    concat (map (λ x, transform
                        (wrapped (self (handle_fit_transform (batch [1; 5; 2]%Z) truncated).2))
                        [x])
              (items_of (dc_iter (batch [1; 5; 2]%Z)))).
Proof.
  pose proof (fit_transform_is_transparent demo_cp (batch [1; 5; 2]%Z) truncated
                {| current_ids := [1; 2; 3];
                   data_inputs := [2; 10; 4]%Z;
                   expected_outputs := [0; 0; 0]%Z |}
                (handle_fit_transform (batch [1; 5; 2]%Z) truncated).2
                ltac:(file_names) demo_round_trip ltac:(vm_compute; reflexivity)
                ltac:(apply run_eq; vm_compute; reflexivity))
    as (Hfit & _ & _ & _ & _ & Hout).
  split; [exact Hfit|]. apply Hout.
  apply (demo_injective _ [1; 5; 2]%Z); [vm_compute; reflexivity|].
  intros x Hx. each_item Hx; lia.
Defined.



Lemma transform_caches_every_item_witness :
  (contains_cache_for 2%Z ready).1 = inr false ∧
  contains_cache_for 2%Z warm = (inr true, warm).
Proof.
  split; [vm_compute; reflexivity|].
  eapply (transform_caches_every_item (H := collaborators) demo_cp (batch [1; 2; 3]%Z) ready).
  - vm_compute; reflexivity.
  - unfold warm. apply run_eq. vm_compute; reflexivity.
  - change (2%Z ∈ [1; 2; 3]%Z). apply list_elem_of_further, list_elem_of_here.
Defined.

Lemma fit_transform_cache_is_the_batch_witness :
  (contains_cache_for 1%Z warm).1 = inr true ∧
  contains_cache_for 1%Z (handle_fit_transform (batch [5; 21]%Z) warm).2
    = (inr (bool_decide (value_hasher (self warm) 1%Z
                           ∈ map (value_hasher (self warm))
                               (items_of (dc_iter (batch [5; 21]%Z))))),
       (handle_fit_transform (batch [5; 21]%Z) warm).2) ∧
  contains_cache_for 37%Z (handle_fit_transform (batch [5; 21]%Z) warm).2
    = (inr (bool_decide (value_hasher (self warm) 37%Z
                           ∈ map (value_hasher (self warm))
                               (items_of (dc_iter (batch [5; 21]%Z))))),
       (handle_fit_transform (batch [5; 21]%Z) warm).2).
Proof.
  split; [vm_compute; reflexivity|].
  split;
    (eapply (fit_transform_cache_is_the_batch (H := collaborators) demo_cp
               (batch [5; 21]%Z) warm);
     [file_names|vm_compute; reflexivity|apply run_eq; vm_compute; reflexivity]).
Defined.

Lemma handlers_before_setup_witness :
  handle_transform (batch []) fresh
    = (inr {| current_ids := []; data_inputs := []; expected_outputs := [] |}, fresh) ∧
  handle_transform (batch [1; 2]%Z) fresh = (inl AttributeError, fresh) ∧
  handle_fit_transform (batch [1; 2]%Z) fresh = (inl AttributeError, fresh).
Proof.
  split; [exact (proj1 (handlers_before_setup (batch []) fresh eq_refl))|].
  exact (handlers_before_setup (batch [1; 2]%Z) fresh eq_refl).
Defined.

End Runs.
